(** * Legendre intervals: spin asymmetry and radical compression

    A shallow embedding of the interval-analysis code of the repository
    (scripts/verify_spin_asymmetry.py, scripts/wronskian_scanner.py,
    scripts/dual_weapon.py, scripts/topology_scanner.py) and the proofs of
    its specification.

    Python integers are unbounded, so they are modelled by [Z]; [%] and [//]
    are Python's floored operations, which for a positive divisor are
    [Z.modulo] and [Z.div].  [range(a, b)] is [seqZ a (b - a)].  The scripts
    call three functions of the sympy library ([isprime], [jacobi_symbol],
    [factorint]); they are not part of the repository and enter the
    development through the interface [Sympy], by their documented
    contracts.  Python floats are IEEE-754 binary64 numbers; the logarithms
    the scripts compute are embedded twice, exactly (as real numbers) and
    in binary64. *)

From Stdlib Require Import ZArith QArith Lia Reals Lra Floats.
From stdpp Require Import base tactics option list list_numbers sorting gmap sets.

Local Open Scope Z_scope.

(** ** The external integer arithmetic service (sympy) *)

(** [a] is a square modulo [p]. *)
Definition quadratic_residue (p a : Z) : Prop :=
  ∃ x : Z, (x * x) mod p = a mod p.

(** The Legendre symbol of [a] at an odd prime [p], as a relation:
    [0] when [p] divides [a], [1] when [a] is a nonzero square modulo [p],
    [-1] otherwise. *)
Definition legendre_symbol (a p s : Z) : Prop :=
  (a mod p = 0 ∧ s = 0)
  ∨ (a mod p ≠ 0 ∧ quadratic_residue p a ∧ s = 1)
  ∨ (a mod p ≠ 0 ∧ ¬ quadratic_residue p a ∧ s = -1).

Class Sympy := {
  (** [sympy.isprime(m)] *)
  isprime : Z → bool;
  (** [sympy.jacobi_symbol(a, p)] *)
  jacobi_symbol : Z → Z → Z;
  (** the keys of [sympy.factorint(m)] *)
  factorint_keys : Z → list Z;
  isprime_spec : ∀ m, isprime m = true ↔ Z.prime m;
  jacobi_symbol_spec : ∀ a p,
    Z.prime p → 2 < p → legendre_symbol a p (jacobi_symbol a p);
  factorint_keys_NoDup : ∀ m, 1 ≤ m → NoDup (factorint_keys m);
  factorint_keys_spec : ∀ m q,
    1 ≤ m → q ∈ factorint_keys m ↔ Z.prime q ∧ (q | m);
}.

(** ** scripts/verify_spin_asymmetry.py *)

(** The dictionary returned by [verify_interval]. *)
Record SpinRecord := {
  rec_n : Z;
  rec_p : Z;
  missing_residue : Z;
  N_plus : Z;
  N_minus : Z;
  N_zero : Z;
  expected_plus : Z;
  expected_minus : Z;
  gap : Z;
  theorem_holds : bool;
}.

(** The three counters [n_plus], [n_minus], [n_zero] of the scan. *)
Record SpinTally := { n_plus : Z; n_minus : Z; n_zero : Z }.

Section SpinScanner.
Context `{Sympy}.

(** One iteration of [for x in interior]. *)
Definition spin_step (p : Z) (t : SpinTally) (x : Z) : SpinTally :=
  let res := x mod p in
  if res =? 0 then
    {| n_plus := n_plus t; n_minus := n_minus t; n_zero := n_zero t + 1 |}
  else
    let ls := jacobi_symbol res p in
    if ls =? 1 then
      {| n_plus := n_plus t + 1; n_minus := n_minus t; n_zero := n_zero t |}
    else if ls =? -1 then
      {| n_plus := n_plus t; n_minus := n_minus t + 1; n_zero := n_zero t |}
    else t.

Definition verify_interval (n : Z) : option SpinRecord :=
  let p := 2 * n - 1 in
  if negb (isprime p) then None
  else
    let start := (n - 1) ^ 2 in
    let end_ := n ^ 2 in
    let interior := seqZ (start + 1) (end_ - (start + 1)) in
    let r := (n * n) mod p in
    let t := foldl (spin_step p)
               {| n_plus := 0; n_minus := 0; n_zero := 0 |} interior in
    let expected_plus := (p - 3) `div` 2 in
    let expected_minus := (p - 1) `div` 2 in
    let expected_zero := 1 in
    let theorem_holds :=
      (n_plus t =? expected_plus)
      && (n_minus t =? expected_minus)
      && (n_zero t =? expected_zero) in
    Some {| rec_n := n; rec_p := p; missing_residue := r;
            N_plus := n_plus t; N_minus := n_minus t; N_zero := n_zero t;
            expected_plus := expected_plus;
            expected_minus := expected_minus;
            gap := n_minus t - n_plus t;
            theorem_holds := theorem_holds |}.

(** The batch driver [main]: the state is [(results, total, holds)]. *)
Record Batch := {
  results : list SpinRecord;
  total : Z;
  holds : Z;
}.

Definition batch_step (b : Batch) (n : Z) : Batch :=
  match verify_interval n with
  | Some result =>
      {| results := results b ++ [result];
         total := total b + 1;
         holds := if theorem_holds result then holds b + 1 else holds b |}
  | None => b
  end.

Definition run_batch (limit : Z) : Batch :=
  foldl batch_step {| results := []; total := 0; holds := 0 |}
    (seqZ 2 (limit + 1 - 2)).
End SpinScanner.

(** ** scripts/wronskian_scanner.py *)

Section CompositeRunFinder.
Context `{Sympy}.

(** One iteration of [for x in range(start, end + 1)]; the state is
    [(max_gap, current_gap)].  Both branches rebind the variables to lists
    that are not appended to afterwards under another name, so the lists
    are values. *)
Definition gap_step (st : list Z * list Z) (x : Z) : list Z * list Z :=
  let '(max_gap, current_gap) := st in
  if negb (isprime x) then (max_gap, current_gap ++ [x])
  else
    (if (length max_gap <? length current_gap)%nat
     then current_gap else max_gap, []).

(** The comparison made after the loop. *)
Definition gap_final (st : list Z * list Z) : list Z :=
  let '(max_gap, current_gap) := st in
  if (length max_gap <? length current_gap)%nat
  then current_gap else max_gap.

Definition gap_scan (xs : list Z) : list Z :=
  gap_final (foldl gap_step ([], []) xs).

Definition find_max_composite_gap (n : Z) : list Z :=
  let start := (n - 1) ^ 2 in
  let end_ := n ^ 2 in
  gap_scan (seqZ start (end_ + 1 - start)).
End CompositeRunFinder.

(** *** Errors and log-domain numbers *)

(** The exceptions the arithmetic of the scripts can raise. *)
Inductive PyError := ValueError | ZeroDivisionError.

Inductive result (A : Type) :=
  | Ok (a : A)
  | Raise (e : PyError).
Arguments Ok {A} a.
Arguments Raise {A} e.

#[export] Instance result_ret : MRet result := λ A a, Ok a.
#[export] Instance result_bind : MBind result := λ A B f r,
  match r with Ok a => f a | Raise e => Raise e end.

(** The scripts work with sums of natural logarithms of positive integers.
    Two embeddings of this arithmetic are given.

    The first one, here, is exact: a sum of logarithms is the logarithm of
    the product of the integers, and it is carried by that product, so
    [Ln a] stands for the real number [ln a] and Python's [0], the start
    value of [sum], is [Ln 1].  It erases what binary64 does to the numbers
    (the rounding of [math.log] and of every addition and division, and with
    it the order of the summation), and it is used for what does not depend on
    that: which exception is raised, which branch of a guard is taken, and
    the integers behind the logarithms.

    The second one, [compute_wronskian_double] below, computes with binary64
    numbers as the script does; statements about the numbers that
    [compute_wronskian] returns are made on it. *)
Record LogNum := Ln { arg : Z }.

(** [math.log(c)]: a [ValueError] outside the positive integers; the exact
    logarithm, not the double the C library rounds it to. *)
Definition math_log (c : Z) : result LogNum :=
  if c <=? 0 then Raise ValueError else Ok (Ln c).

(** [a + b] on exact logarithms: [ln a + ln b = ln (a * b)], without the
    rounding of the binary64 addition. *)
Definition log_add (a b : LogNum) : LogNum := Ln (arg a * arg b).

(** [sum(math.log(c) for c in l)], started at [acc]. *)
Fixpoint sum_logs (acc : LogNum) (l : list Z) : result LogNum :=
  match l with
  | [] => Ok acc
  | c :: l' => v ← math_log c; sum_logs (log_add acc v) l'
  end.

(** [a > 0] on logarithms: [ln a > 0] exactly when [a > 1]. *)
Definition log_positive (a : LogNum) : bool := 1 <? arg a.

(** The values a compression ratio takes: a quotient of two logarithms,
    [float('inf')], or the literal [1.0]. *)
Inductive Ratio :=
  | Quot (num den : LogNum)
  | Infinity
  | RatioOne.

(** [a / b] on logarithms: a [ZeroDivisionError] when [b] is [0.0]. *)
Definition log_div (a b : LogNum) : result Ratio :=
  if arg b =? 1 then Raise ZeroDivisionError else Ok (Quot a b).

Section RadicalVolume.
Context `{Sympy}.

(** The loop [for c in composites: all_primes.update(factorint(c).keys())]
    started at the set [acc]. *)
Definition collect_primes (acc : gset Z) (composites : list Z) : gset Z :=
  foldl (λ all_primes c, all_primes ∪ list_to_set (factorint_keys c))
    acc composites.

Definition compute_wronskian (composites : list Z)
  : result (option LogNum * option LogNum * option Ratio) :=
  match composites with
  | [] => Ok (None, None, None)
  | _ =>
      log_volume ← sum_logs (Ln 1) composites;
      let all_primes := collect_primes ∅ composites in
      log_radical ← sum_logs (Ln 1) (elements all_primes);
      q_w ← (if log_positive log_radical
             then log_div log_volume log_radical
             else Ok Infinity);
      Ok (Some log_volume, Some log_radical, Some q_w)
  end.

(** ** scripts/dual_weapon.py *)

Definition compute_radical (n : Z) : Z :=
  if n <=? 1 then 1
  else foldl (λ rad p, rad * p) 1 (factorint_keys n).

(** [total_product] of [weapon_B_wronskian_volume]. *)
Definition total_product (max_gap_seq : list Z) : Z :=
  foldl (λ total_product x, total_product * x) 1 max_gap_seq.

(** The part of [weapon_B_wronskian_volume] after the run is found:
    [None] for the early [return] on an empty run, otherwise
    [(total_product, total_radical, compression_ratio)].  The two [print]
    lines that follow the ratio evaluate [math.log(total_product)] and
    [math.log(total_radical)] once more, whichever branch the ratio took, and
    raise where these do. *)
Definition weapon_B_volume (max_gap_seq : list Z)
  : result (option (Z * Z * Ratio)) :=
  if (length max_gap_seq =? 0)%nat then Ok None
  else
    let total_product := total_product max_gap_seq in
    let total_radical := compute_radical total_product in
    compression_ratio ←
      (if 1 <? total_radical
       then lp ← math_log total_product;
            lr ← math_log total_radical;
            log_div lp lr
       else Ok RatioOne);
    _ ← math_log total_product;
    _ ← math_log total_radical;
    Ok (Some (total_product, total_radical, compression_ratio)).
End RadicalVolume.

(** *** Binary64 arithmetic

    Python's [float] is the IEEE-754 binary64 format, Rocq's primitive
    [float], with the same correctly rounded [+] and [/].  Two things are
    not fixed by the script: the double that [math.log], the C library's
    [log], returns at an integer, and the order in which a [set] is
    iterated.  Both enter through the interface [Binary64]. *)
Class Binary64 := {
  (** [math.log(c)] at an integer [c > 0] *)
  libm_log : Z → float;
  (** [list(s)]: the members of the set [s], in the order of its iteration *)
  set_iter : gset Z → list Z;
  set_iter_Permutation : ∀ s, set_iter s ≡ₚ elements s;
}.

Section RadicalVolumeDouble.
Context `{Sympy} `{Binary64}.

(** [math.log(c)]: a [ValueError] outside the positive integers. *)
Definition math_log_double (c : Z) : result float :=
  if c <=? 0 then Raise ValueError else Ok (libm_log c).

(** [sum(math.log(c) for c in l)], started at [acc]: the terms are added one
    by one, from the left.  (The start value [0] of [sum] is an [int];
    [0 + x] is the float [x].  From CPython 3.12 on [sum] compensates the
    rounding errors of the additions, which gives the same double for a sum
    of at most two terms.) *)
Fixpoint sum_logs_double (acc : float) (l : list Z) : result float :=
  match l with
  | [] => Ok acc
  | c :: l' => v ← math_log_double c; sum_logs_double (acc + v)%float l'
  end.

(** [compute_wronskian] on binary64 numbers. *)
Definition compute_wronskian_double (composites : list Z)
  : result (option float * option float * option float) :=
  match composites with
  | [] => Ok (None, None, None)
  | _ =>
      log_volume ← sum_logs_double 0%float composites;
      let all_primes := collect_primes ∅ composites in
      log_radical ← sum_logs_double 0%float (set_iter all_primes);
      let q_w := if (0 <? log_radical)%float
                 then (log_volume / log_radical)%float
                 else infinity in
      Ok (Some log_volume, Some log_radical, Some q_w)
  end.
End RadicalVolumeDouble.

(** ** A reference implementation of the service

    Trial division and exhaustive search: slow, executable, and enough to
    run the scripts on small inputs. *)

Definition trial_isprime (m : Z) : bool :=
  (1 <? m) && forallb (λ d, negb (m mod d =? 0)) (seqZ 2 (m - 2)).

Definition search_jacobi (a p : Z) : Z :=
  if a mod p =? 0 then 0
  else if existsb (λ x, (x * x) mod p =? a mod p) (seqZ 0 p) then 1
  else -1.

Definition trial_factors (m : Z) : list Z :=
  List.filter (λ q, trial_isprime q && (m mod q =? 0)) (seqZ 2 (m - 1)).

(** ** Vocabulary of the specification *)

(** A composite number: greater than [1] and not prime. *)
Definition composite (x : Z) : Prop := 1 < x ∧ ¬ Z.prime x.

(** No prime among [a], ..., [a + len - 1]. *)
Definition prime_free (a len : Z) : Prop :=
  ∀ y, a ≤ y < a + len → ¬ Z.prime y.

(** A run starting at [a] cannot be extended to the left inside an interval
    that starts at [lo]. *)
Definition left_closed (lo a : Z) : Prop := a = lo ∨ Z.prime (a - 1).

(** [a], ..., [a + len - 1] is a non-empty run of non-primes of the interval
    [[lo, hi]] that cannot be extended on either side: the neighbour on each
    side is a prime, or the run touches the boundary. *)
Definition maximal_run (lo hi a len : Z) : Prop :=
  0 < len ∧ lo ≤ a ∧ a + len - 1 ≤ hi
  ∧ prime_free a len ∧ left_closed lo a
  ∧ (a + len - 1 = hi ∨ Z.prime (a + len)).

(** A run that the scan has already closed when it reaches [x]: the prime
    that ends it lies before [x]. *)
Definition closed_run (lo x a len : Z) : Prop :=
  0 < len ∧ lo ≤ a ∧ prime_free a len ∧ left_closed lo a
  ∧ Z.prime (a + len) ∧ a + len < x.

(** The loop invariant of the scan when it is about to read [x]:
    [current_gap] is the run that ends just before [x]; [max_gap] is the
    earliest of the longest runs closed so far. *)
Definition gap_inv (lo x : Z) (st : list Z * list Z) : Prop :=
  let '(max_gap, current_gap) := st in
  let c := x - Z.of_nat (length current_gap) in
  lo ≤ c
  ∧ current_gap = seqZ c (Z.of_nat (length current_gap))
  ∧ prime_free c (Z.of_nat (length current_gap))
  ∧ left_closed lo c
  ∧ ((max_gap = [] ∧ ∀ a len, ¬ closed_run lo x a len)
     ∨ (∃ a, max_gap = seqZ a (Z.of_nat (length max_gap))
          ∧ closed_run lo c a (Z.of_nat (length max_gap))
          ∧ ∀ a' len', closed_run lo x a' len' →
              len' ≤ Z.of_nat (length max_gap)
              ∧ (len' = Z.of_nat (length max_gap) → a ≤ a'))).

(** The product of a list of integers. *)
Definition product (l : list Z) : Z := foldr Z.mul 1 l.

(** The real number a log-domain value stands for. *)
Definition log_value (a : LogNum) : R := ln (IZR (arg a)).

(** The real number a ratio stands for; [float('inf')] is not one. *)
Definition ratio_value (q : Ratio) : option R :=
  match q with
  | Quot num den => Some (log_value num / log_value den)%R
  | Infinity => None
  | RatioOne => Some 1%R
  end.


(** ** The rest of the scripts *)

(** *** scripts/verify_spin_asymmetry.py: the summary of [main] *)

(** The line printed after the scan: all qualifying intervals verified, or
    the [n] of the first ten failures. *)
Inductive Verdict :=
  | AllHold
  | Failures (ns : list Z).

Record SpinSummary := {
  sum_total : Z;
  sum_holds : Z;
  sum_percentage : Q;
  sum_verdict : Verdict;
  sum_display : list (option SpinRecord);
}.

(** [results[-k:]] *)
Definition last_k {A : Type} (k : nat) (l : list A) : list A :=
  drop (length l - k) l.

Section SpinMain.
Context `{Sympy}.

(** [main] from the scan on: the percentage [100*holds/total] is a true
    division, kept as an exact rational. *)
Definition spin_main (limit : Z) : result SpinSummary :=
  let b := run_batch limit in
  percentage ←
    (if total b =? 0 then Raise ZeroDivisionError
     else Ok (100 * holds b # Z.to_pos (total b)));
  let verdict :=
    if holds b =? total b then AllHold
    else
      let failures := filter (λ r, theorem_holds r = false) (results b) in
      Failures (rec_n <$> take 10 failures) in
  let display :=
    (Some <$> take 5 (results b)) ++ [None]
    ++ (Some <$> last_k 3 (results b)) in
  Ok {| sum_total := total b; sum_holds := holds b;
        sum_percentage := percentage; sum_verdict := verdict;
        sum_display := display |}.
End SpinMain.

(** *** scripts/topology_scanner.py *)

Section TopologyScanner.
Context `{Sympy}.

(** One iteration of the inner loop of [run_weapon_a_topology]; the state is
    [(positive_spin, negative_spin)]. *)
Definition topology_spin_step (p : Z) (st : Z * Z) (x : Z) : Z * Z :=
  let '(positive_spin, negative_spin) := st in
  if x mod p =? 0 then st
  else
    let spin := jacobi_symbol x p in
    if spin =? 1 then (positive_spin + 1, negative_spin)
    else if spin =? -1 then (positive_spin, negative_spin + 1)
    else st.

(** One iteration of the outer loop; the state is
    [(prime_p_count, law_holds_count)]. *)
Definition topology_step (st : Z * Z) (n : Z) : Z * Z :=
  let '(prime_p_count, law_holds_count) := st in
  let p := 2 * n - 1 in
  if isprime p then
    let start_val := (n - 1) ^ 2 in
    let end_val := n ^ 2 in
    let '(positive_spin, negative_spin) :=
      foldl (topology_spin_step p) (0, 0)
        (seqZ (start_val + 1) (end_val - (start_val + 1))) in
    (prime_p_count + 1,
     if negative_spin - positive_spin =? 1
     then law_holds_count + 1 else law_holds_count)
  else st.

(** [run_weapon_a_topology]: the two counters and the printed matching rate
    [(law_holds_count/prime_p_count)*100]. *)
Definition run_weapon_a_topology (limit_n : Z) : result (Z * Z * Q) :=
  let '(prime_p_count, law_holds_count) :=
    foldl topology_step (0, 0) (seqZ 2 (limit_n + 1 - 2)) in
  rate ←
    (if prime_p_count =? 0 then Raise ZeroDivisionError
     else Ok ((law_holds_count # Z.to_pos prime_p_count) * 100)%Q);
  Ok (prime_p_count, law_holds_count, rate).

(** The loop [for x in max_gap_seq] of [run_weapon_b_wronskian]; the state
    is [(total_product_log, global_factors)]. *)
Fixpoint topology_accumulate (st : LogNum * gset Z) (xs : list Z)
  : result (LogNum * gset Z) :=
  match xs with
  | [] => Ok st
  | x :: xs' =>
      let '(total_product_log, global_factors) := st in
      v ← math_log x;
      let global_factors :=
        foldl (λ s p, s ∪ {[p]}) global_factors (factorint_keys x) in
      topology_accumulate (log_add total_product_log v, global_factors) xs'
  end.

(** The body of the loop [for n in n_targets]: [None] for the [continue] on
    an empty run, otherwise the printed row
    [(n, gap_len, total_product_log, total_radical_log, compression_ratio)]. *)
Definition topology_row (n : Z)
  : result (option (Z * nat * LogNum * LogNum * Ratio)) :=
  let start_val := (n - 1) ^ 2 in
  let end_val := n ^ 2 in
  let max_gap_seq := gap_scan (seqZ start_val (end_val + 1 - start_val)) in
  let gap_len := length max_gap_seq in
  if (gap_len =? 0)%nat then Ok None
  else
    '(total_product_log, global_factors) ←
      topology_accumulate (Ln 1, ∅) max_gap_seq;
    total_radical_log ← sum_logs (Ln 1) (elements global_factors);
    compression_ratio ←
      (if log_positive total_radical_log
       then log_div total_product_log total_radical_log
       else Ok RatioOne);
    Ok (Some (n, gap_len, total_product_log, total_radical_log,
              compression_ratio)).

(** [run_weapon_b_wronskian]: the rows printed, in order; an exception ends
    the run. *)
Fixpoint run_weapon_b_wronskian (n_targets : list Z)
  : result (list (Z * nat * LogNum * LogNum * Ratio)) :=
  match n_targets with
  | [] => Ok []
  | n :: rest =>
      row ← topology_row n;
      rows ← run_weapon_b_wronskian rest;
      Ok (match row with Some r => r :: rows | None => rows end)
  end.
End TopologyScanner.

(** *** scripts/dual_weapon.py *)

(** What [weapon_A_residue_sieve] prints. *)
Record SieveReport := {
  inner_count : nat;
  multiple_of_p : option Z;
  positive_spin : nat;
  negative_spin : nat;
  symmetry_message : bool;
}.

(** The search loop with [break]: the first multiple of [p]. *)
Fixpoint find_multiple (p : Z) (xs : list Z) : option Z :=
  match xs with
  | [] => None
  | x :: xs' => if x mod p =? 0 then Some x else find_multiple p xs'
  end.

(** [l.count(v)] *)
Definition count_of (v : Z) (l : list Z) : nat :=
  length (filter (λ s, s = v) l).

Section DualWeapon.
Context `{Sympy}.

(** [weapon_A_residue_sieve]; [main] calls it with [p = 2n - 1], which is
    never [0], so [x % p] does not raise. *)
Definition weapon_A_residue_sieve (n p : Z) : SieveReport :=
  let start_val := (n - 1) ^ 2 in
  let end_val := n ^ 2 in
  let inner_numbers := seqZ (start_val + 1) (end_val - (start_val + 1)) in
  let multiple_of_p := find_multiple p inner_numbers in
  let spins :=
    foldl (λ spins x,
             if decide (Some x = multiple_of_p) then spins
             else spins ++ [jacobi_symbol x p])
      [] inner_numbers in
  let positive_spin := count_of 1 spins in
  let negative_spin := count_of (-1) spins in
  {| inner_count := length inner_numbers;
     multiple_of_p := multiple_of_p;
     positive_spin := positive_spin;
     negative_spin := negative_spin;
     symmetry_message := bool_decide (positive_spin = negative_spin) |}.

(** [weapon_B_wronskian_volume]: the scan is the one of
    [find_max_composite_gap], written out again in this script. *)
Definition weapon_B_wronskian_volume (n : Z)
  : result (option (Z * Z * Ratio)) :=
  let start_val := (n - 1) ^ 2 in
  let end_val := n ^ 2 in
  weapon_B_volume (gap_scan (seqZ start_val (end_val + 1 - start_val))).

(** [main]: weapon A runs only at a prime modulus ([None] is the warning),
    weapon B always. *)
Definition dual_weapon_main (n : Z)
  : option SieveReport * result (option (Z * Z * Ratio)) :=
  let p := 2 * n - 1 in
  (if negb (isprime p) then None else Some (weapon_A_residue_sieve n p),
   weapon_B_wronskian_volume n).
End DualWeapon.

(** *** scripts/wronskian_scanner.py: the loop of [main] *)

(** A value shown rounded: [round(x, digits)]. *)
Record Rounded (A : Type) := Round { rounded : A; digits : Z }.
Arguments Round {A} rounded digits.
Arguments rounded {A} r.
Arguments digits {A} r.

(** The row of the CSV file, without the running time. *)
Record GapRow := {
  row_n : Z;
  gap_length : nat;
  gap_start : option Z;
  gap_end : option Z;
  row_log_volume : option (Rounded LogNum);
  row_log_radical : option (Rounded LogNum);
  row_q_W : option (Rounded Ratio);
}.

(** The exceptions of [main]: those of the arithmetic, and the [TypeError]
    of formatting [None] with a float format. *)
Inductive MainError :=
  | Arithmetic (e : PyError)
  | TypeError.

(** Truth value of a float: false for [0.0] only. *)
Definition log_truthy (a : LogNum) : bool := negb (arg a =? 1).

Definition ratio_truthy (q : Ratio) : bool :=
  match q with
  | Quot num den => log_truthy num
  | Infinity => true
  | RatioOne => true
  end.

Section WronskianMain.
Context `{Sympy}.

(** One iteration of [for n in args.targets]: the row appended to
    [results], or the exception raised before the line is printed. *)
Definition wronskian_iteration (n : Z) : MainError + GapRow :=
  let gap := find_max_composite_gap n in
  match compute_wronskian gap with
  | Raise e => inl (Arithmetic e)
  | Ok (log_vol, log_rad, q_w) =>
      let row := {|
        row_n := n;
        gap_length := length gap;
        gap_start := head gap;
        gap_end := last gap;
        row_log_volume :=
          match log_vol with
          | Some v => if log_truthy v then Some (Round v 2) else None
          | None => None
          end;
        row_log_radical :=
          match log_rad with
          | Some v => if log_truthy v then Some (Round v 2) else None
          | None => None
          end;
        row_q_W :=
          match q_w with
          | Some q => if ratio_truthy q then Some (Round q 4) else None
          | None => None
          end |} in
      match log_vol, log_rad, q_w with
      | Some _, Some _, Some _ => inr row
      | _, _, _ => inl TypeError
      end
  end.
End WronskianMain.


(** ** A binary64 runtime for the examples

    [math.log] at the arguments [3], [11] and [33], where it returns the
    correctly rounded logarithm (lemma [log_table_nearest]): the doubles
    that [float.hex] prints as 0x1.193ea7aad030bp+0, 0x1.32ee3b77f374cp+1
    and 0x1.bf8d8f4d5b8d1p+1, in decimal 1.0986122886681098,
    2.3978952727983707 and 3.4965075614664802.  Other arguments are not
    tabulated ([nan]).  A set is iterated in the order of [elements]. *)
Definition log_table (c : Z) : float :=
  if c =? 3 then 0x1.193ea7aad030bp+0%float
  else if c =? 11 then 0x1.32ee3b77f374cp+1%float
  else if c =? 33 then 0x1.bf8d8f4d5b8d1p+1%float
  else nan.

Definition reference_binary64 : Binary64 :=
  {| libm_log := log_table;
     set_iter := elements;
     set_iter_Permutation := λ s, reflexivity (elements s) |}.




(** * Proofs *)

(** ** The reference implementation meets the contracts *)

Lemma mod_zero_divide (a d : Z) : d ≠ 0 → a mod d = 0 ↔ (d | a).
Proof. intros Hd. by apply Z.mod_divide. Qed.

Lemma trial_isprime_spec (m : Z) : trial_isprime m = true ↔ Z.prime m.
Proof.
  unfold trial_isprime, Z.prime.
  rewrite andb_true_iff, Z.ltb_lt, forallb_forall.
  split.
  - intros [Hm Hall]. split; [done|].
    intros d Hd Hdiv.
    specialize (Hall d).
    rewrite <- list_elem_of_In, elem_of_seqZ in Hall.
    assert (Hz : negb (m mod d =? 0) = true) by (apply Hall; lia).
    apply negb_true_iff, Z.eqb_neq in Hz.
    apply Hz, mod_zero_divide; [lia | done].
  - intros [Hm Hall]. split; [done|].
    intros d Hd. rewrite <- list_elem_of_In, elem_of_seqZ in Hd.
    apply negb_true_iff, Z.eqb_neq. intros Hz.
    apply (Hall d); [lia|]. apply mod_zero_divide; [lia | done].
Qed.

Lemma search_jacobi_spec (a p : Z) :
  Z.prime p → 2 < p → legendre_symbol a p (search_jacobi a p).
Proof.
  intros Hp Hp2. unfold legendre_symbol, search_jacobi.
  destruct (Z.eqb_spec (a mod p) 0) as [Hz|Hz]; [by left|].
  right.
  destruct (existsb _ _) eqn:Hex.
  - left. split_and!; [done| |done].
    apply existsb_exists in Hex as (x & _ & Hx).
    exists x. by apply Z.eqb_eq.
  - right. split_and!; [done| |done].
    intros [x Hx].
    assert (Hin : existsb (λ x, (x * x) mod p =? a mod p) (seqZ 0 p) = true);
      [|congruence].
    apply existsb_exists. exists (x mod p). split.
    + apply list_elem_of_In, elem_of_seqZ.
      pose proof (Z.mod_pos_bound x p). lia.
    + apply Z.eqb_eq. rewrite <- Z.mul_mod by lia. done.
Qed.

Lemma trial_factors_NoDup (m : Z) : NoDup (trial_factors m).
Proof.
  unfold trial_factors. apply NoDup_ListNoDup, List.NoDup_filter.
  apply NoDup_ListNoDup, NoDup_seqZ.
Qed.

Lemma trial_factors_spec (m q : Z) :
  1 ≤ m → q ∈ trial_factors m ↔ Z.prime q ∧ (q | m).
Proof.
  intros Hm. unfold trial_factors.
  rewrite list_elem_of_In, filter_In, <- list_elem_of_In, elem_of_seqZ.
  rewrite andb_true_iff, trial_isprime_spec, Z.eqb_eq.
  split.
  - intros (Hr & Hq & Hz). split; [done|].
    apply mod_zero_divide; [lia | done].
  - intros [Hq Hdiv]. pose proof (Z.prime_ge_2 _ Hq).
    split; [|split; [done|apply mod_zero_divide; [lia | done]]].
    apply Z.divide_pos_le in Hdiv; lia.
Qed.

(** The reference implementation as an instance of the service. *)
Definition reference_sympy : Sympy := {|
  isprime := trial_isprime;
  jacobi_symbol := search_jacobi;
  factorint_keys := trial_factors;
  isprime_spec := trial_isprime_spec;
  jacobi_symbol_spec := search_jacobi_spec;
  factorint_keys_NoDup := λ m _, trial_factors_NoDup m;
  factorint_keys_spec := trial_factors_spec;
|}.

(** ** Counting residues *)

Section Counting.
Context {A : Type}.
Implicit Types l : list A.

(** The length of a filtered list depends on the elements only. *)
Lemma filter_length_ext (P Q : A → Prop)
    `{∀ x, Decision (P x)} `{∀ x, Decision (Q x)} l :
  (∀ x, x ∈ l → P x ↔ Q x) →
  length (filter P l) = length (filter Q l).
Proof.
  induction l as [|a l IH]; intros Hext; [done|].
  rewrite !filter_cons.
  assert (IH' : length (filter P l) = length (filter Q l)).
  { apply IH. intros x Hx. apply Hext. by right. }
  assert (Ha : P a ↔ Q a) by (apply Hext; left).
  repeat case_decide; simpl; tauto || by rewrite IH'.
Qed.

Lemma filter_length_map {B : Type} (f : B → A) (P : A → Prop)
    `{∀ x, Decision (P x)} (k : list B) :
  length (filter P (f <$> k)) = length (filter (λ y, P (f y)) k).
Proof.
  induction k as [|b k IH]; [done|].
  rewrite fmap_cons, !filter_cons.
  case_decide; simpl; by rewrite IH.
Qed.

(** Three predicates of which every element satisfies exactly one split
    the list. *)
Lemma filter_length_partition (P Q R : A → Prop)
    `{∀ x, Decision (P x)} `{∀ x, Decision (Q x)} `{∀ x, Decision (R x)} l :
  (∀ x, x ∈ l →
    (P x ∧ ¬ Q x ∧ ¬ R x) ∨ (¬ P x ∧ Q x ∧ ¬ R x) ∨ (¬ P x ∧ ¬ Q x ∧ R x)) →
  (length (filter P l) + length (filter Q l) + length (filter R l)
   = length l)%nat.
Proof.
  induction l as [|a l IH]; intros Hpart; [done|].
  rewrite !filter_cons.
  assert (IH' : (length (filter P l) + length (filter Q l)
                 + length (filter R l) = length l)%nat).
  { apply IH. intros x Hx. apply Hpart. by right. }
  assert (Ha := Hpart a (list_elem_of_here a l)).
  repeat case_decide; simpl; lia || tauto.
Qed.

Lemma filter_length_NoDup_singleton `{EqDecision A} (a : A) l :
  NoDup l → a ∈ l → length (filter (λ x, x = a) l) = 1%nat.
Proof.
  induction 1 as [|b l Hb Hnd IH]; intros Ha.
  - by apply elem_of_nil in Ha.
  - rewrite filter_cons. case_decide as Hab.
    + subst b. simpl. f_equal.
      rewrite (filter_length_ext _ (λ _, False)).
      * clear. induction l as [|c l IH]; [done|].
        rewrite filter_cons. by case_decide.
      * intros x Hx. split; [intros ->; done | done].
    + apply IH. apply elem_of_cons in Ha as [->|Ha]; done.
Qed.
End Counting.

(** ** Residues modulo an odd prime *)

Lemma mod_eq_divide (a b p : Z) : 0 < p → a mod p = b mod p ↔ (p | a - b).
Proof.
  intros Hp. rewrite <- mod_zero_divide by lia. split.
  - intros Heq. by rewrite Zminus_mod, Heq, Z.sub_diag, Zmod_0_l.
  - intros Hz.
    replace a with ((a - b) + b) by lia.
    by rewrite Zplus_mod, Hz, Z.add_0_l, Zmod_mod.
Qed.

Lemma divide_small (p d : Z) : - p < d < p → (p | d) → d = 0.
Proof.
  intros Hd [k Hk]. subst d.
  assert (0 < p) by lia.
  destruct (decide (k = 0)) as [->|Hk]; [done|].
  assert (1 ≤ k ∨ k ≤ -1) as [?|?] by lia; nia.
Qed.

Lemma not_divide_small (p x : Z) : 0 < x < p → ¬ (p | x).
Proof. intros Hx Hdiv. apply divide_small in Hdiv; lia. Qed.

(** Two integers of a window of length [p] with the same residue are equal. *)
Lemma window_mod_inj (s p x y : Z) :
  0 < p → s ≤ x < s + p → s ≤ y < s + p → x mod p = y mod p → x = y.
Proof.
  intros Hp Hx Hy Heq. apply mod_eq_divide in Heq; [|done].
  apply divide_small in Heq; lia.
Qed.

(** The residues of [p] consecutive integers are [0], ..., [p - 1]. *)
Lemma window_residues (s p : Z) :
  0 < p → (λ x, x mod p) <$> seqZ s p ≡ₚ seqZ 0 p.
Proof.
  intros Hp. apply NoDup_Permutation.
  - apply NoDup_fmap_2_strong; [|apply NoDup_seqZ].
    intros x y Hx Hy. rewrite elem_of_seqZ in Hx, Hy.
    by apply window_mod_inj with s.
  - apply NoDup_seqZ.
  - intros r. rewrite list_elem_of_fmap, elem_of_seqZ. split.
    + intros (x & -> & _). pose proof (Z.mod_pos_bound x p). lia.
    + intros Hr. exists (s + (r - s) mod p). split.
      * rewrite Zplus_mod, Zmod_mod, <- Zplus_mod.
        replace (s + (r - s)) with r by lia.
        symmetry. apply Z.mod_small. lia.
      * rewrite elem_of_seqZ. pose proof (Z.mod_pos_bound (r - s) p). lia.
Qed.

Section OddPrime.
Variable p : Z.
Hypothesis p_prime : Z.prime p.
Hypothesis p_odd : 2 < p.

Let h := (p - 1) `div` 2.

Lemma odd_prime_half : p = 2 * h + 1.
Proof.
  subst h. destruct p_prime as [_ Hdiv].
  assert (Hm : p mod 2 = 1).
  { pose proof (Z.mod_pos_bound p 2).
    destruct (decide (p mod 2 = 0)) as [Hz|]; [|lia].
    exfalso. apply (Hdiv 2); [lia|]. apply mod_zero_divide; [lia|done]. }
  pose proof (Z.div_mod p 2 ltac:(lia)) as Hdm.
  replace (p - 1) with (p `div` 2 * 2) by lia.
  rewrite Z.div_mul by lia. lia.
Qed.

Lemma square_mod_nonzero (x : Z) : ¬ (p | x) → (x * x) mod p ≠ 0.
Proof.
  intros Hx Hz. apply mod_zero_divide in Hz; [|lia].
  apply Z.divide_prime_mul in Hz; tauto.
Qed.

(** Squaring is injective on [1], ..., [(p - 1) / 2]. *)
Lemma square_mod_inj (x y : Z) :
  1 ≤ x ≤ h → 1 ≤ y ≤ h → (x * x) mod p = (y * y) mod p → x = y.
Proof.
  intros Hx Hy Heq. pose proof odd_prime_half as Hp.
  apply mod_eq_divide in Heq; [|lia].
  replace (x * x - y * y) with ((x - y) * (x + y)) in Heq by lia.
  apply Z.divide_prime_mul in Heq as [Hd|Hd]; [| |done].
  - apply divide_small in Hd; lia.
  - apply not_divide_small in Hd; [done|lia].
Qed.

(** Every nonzero square has a root among [1], ..., [(p - 1) / 2]. *)
Lemma square_root_half (r : Z) :
  r mod p ≠ 0 → quadratic_residue p r →
  ∃ y, 1 ≤ y ≤ h ∧ (y * y) mod p = r mod p.
Proof.
  intros Hr [x Hx]. pose proof odd_prime_half as Hp.
  pose proof (Z.mod_pos_bound x p) as Hb.
  assert (Hxx : (x mod p * (x mod p)) mod p = r mod p).
  { by rewrite <- Z.mul_mod by lia. }
  assert (Hnz : x mod p ≠ 0).
  { intros Hz. rewrite Hz in Hxx. simpl in Hxx.
    rewrite Zmod_0_l in Hxx. done. }
  destruct (decide (x mod p ≤ h)) as [Hle|Hgt].
  - exists (x mod p). split; [lia|done].
  - exists (p - x mod p). split; [lia|].
    rewrite <- Hxx. apply mod_eq_divide; [lia|].
    exists (p - 2 * (x mod p)). lia.
Qed.

(** The nonzero squares among the residues are the squares of
    [1], ..., [(p - 1) / 2], each counted once. *)
Lemma nonzero_squares_Permutation (Q : Z → Prop) `{∀ r, Decision (Q r)} :
  (∀ r, 0 < r < p → Q r ↔ quadratic_residue p r) →
  filter (λ r, r ≠ 0 ∧ Q r) (seqZ 0 p)
  ≡ₚ (λ x, (x * x) mod p) <$> seqZ 1 h.
Proof.
  intros HQ. pose proof odd_prime_half as Hp.
  apply NoDup_Permutation.
  - apply NoDup_filter, NoDup_seqZ.
  - apply NoDup_fmap_2_strong; [|apply NoDup_seqZ].
    intros x y Hx Hy. rewrite elem_of_seqZ in Hx, Hy.
    apply square_mod_inj; lia.
  - intros r.
    rewrite list_elem_of_filter, list_elem_of_fmap, elem_of_seqZ. split.
    + intros [[Hnz Hq] Hr].
      apply HQ in Hq; [|lia].
      destruct (square_root_half r) as (y & Hy & Hyy); [|done|].
      { rewrite Z.mod_small; lia. }
      exists y. rewrite elem_of_seqZ. split; [|lia].
      rewrite Hyy, Z.mod_small; lia.
    + intros (x & -> & Hx). rewrite elem_of_seqZ in Hx.
      pose proof (Z.mod_pos_bound (x * x) p).
      assert ((x * x) mod p ≠ 0).
      { apply square_mod_nonzero, not_divide_small. lia. }
      split; [split; [done|]|lia].
      apply HQ; [lia|]. exists x. by rewrite Zmod_mod.
Qed.

Lemma nonzero_squares_count (Q : Z → Prop) `{∀ r, Decision (Q r)} :
  (∀ r, 0 < r < p → Q r ↔ quadratic_residue p r) →
  length (filter (λ r, r ≠ 0 ∧ Q r) (seqZ 0 p)) = Z.to_nat h.
Proof.
  intros HQ. rewrite (nonzero_squares_Permutation Q HQ).
  by rewrite length_fmap, length_seqZ.
Qed.
End OddPrime.

(** ** The spin scan *)

Section SpinScan.
Context `{Sympy}.

(** The loop of [verify_interval] counts three classes of points. *)
Lemma spin_scan_counts (p : Z) (xs : list Z) (t : SpinTally) :
  let t' := foldl (spin_step p) t xs in
  n_zero t' = n_zero t + Z.of_nat (length (filter (λ x, x mod p = 0) xs))
  ∧ n_plus t' = n_plus t + Z.of_nat (length
      (filter (λ x, x mod p ≠ 0 ∧ jacobi_symbol (x mod p) p = 1) xs))
  ∧ n_minus t' = n_minus t + Z.of_nat (length
      (filter (λ x, x mod p ≠ 0 ∧ jacobi_symbol (x mod p) p = -1) xs)).
Proof.
  revert t. induction xs as [|x xs IH]; intros t; simpl.
  { split_and!; lia. }
  destruct (IH (spin_step p t x)) as (Hz & Hp & Hm).
  rewrite Hz, Hp, Hm. clear IH Hz Hp Hm.
  rewrite !filter_cons. unfold spin_step.
  destruct (Z.eqb_spec (x mod p) 0) as [Hx|Hx].
  { repeat case_decide; simpl; try tauto; try lia. }
  destruct (Z.eqb_spec (jacobi_symbol (x mod p) p) 1) as [Hj|Hj].
  { repeat case_decide; simpl; try tauto; try lia. }
  destruct (Z.eqb_spec (jacobi_symbol (x mod p) p) (-1)) as [Hj'|Hj'];
    repeat case_decide; simpl; try tauto; try lia.
Qed.

Section PrimeModulus.
Variable n : Z.
Hypothesis n_ge_2 : 2 ≤ n.
Hypothesis p_prime : Z.prime (2 * n - 1).

Local Abbreviation p := (2 * n - 1)%Z.
Local Abbreviation s := ((n - 1) ^ 2)%Z.

Lemma modulus_gt_2 : 2 < p.
Proof. lia. Qed.

Lemma jacobi_classes (r : Z) :
  0 < r < p →
  (jacobi_symbol r p = 1 ∧ quadratic_residue p r)
  ∨ (jacobi_symbol r p = -1 ∧ ¬ quadratic_residue p r).
Proof.
  intros Hr.
  destruct (jacobi_symbol_spec r p p_prime modulus_gt_2)
    as [[Hz _]|[(_&?&?)|(_&?&?)]]; [|by left|by right].
  rewrite Z.mod_small in Hz; lia.
Qed.

Lemma jacobi_one_iff (r : Z) :
  0 < r < p → jacobi_symbol r p = 1 ↔ quadratic_residue p r.
Proof. intros Hr. destruct (jacobi_classes r Hr); intuition lia. Qed.

(** The left endpoint is a nonzero square modulo [p]. *)
Lemma start_residue : 0 < s mod p < p ∧ quadratic_residue p (s mod p).
Proof.
  assert (Hne : s mod p ≠ 0).
  { rewrite Z.pow_2_r.
    apply (square_mod_nonzero p p_prime modulus_gt_2).
    apply not_divide_small. lia. }
  pose proof (Z.mod_pos_bound s p). split; [lia|].
  exists (n - 1). by rewrite Zmod_mod, Z.pow_2_r.
Qed.

(** Counting over the interior is counting over all residues but the
    one of the left endpoint. *)
Lemma interior_count (P : Z → Prop) `{∀ r, Decision (P r)} :
  length (filter P (seqZ 0 p))
  = Nat.add (length (filter P [s mod p]))
      (length (filter (λ x, P (x mod p)) (seqZ (s + 1) (p - 1)))).
Proof.
  rewrite <- (window_residues s p) by lia.
  rewrite seqZ_cons by lia.
  replace (Z.succ s) with (s + 1) by lia.
  replace (Z.pred p) with (p - 1) by lia.
  rewrite fmap_cons.
  change (?a :: ?l) with ([a] ++ l) at 1.
  by rewrite filter_app, length_app, filter_length_map.
Qed.

Lemma interior_zero :
  length (filter (λ x, x mod p = 0) (seqZ (s + 1) (p - 1))) = 1%nat.
Proof.
  pose proof (interior_count (λ r, r = 0)) as Hc.
  rewrite filter_length_NoDup_singleton in Hc;
    [|apply NoDup_seqZ|apply elem_of_seqZ; lia].
  rewrite filter_cons_False in Hc; [simpl in Hc; lia|].
  pose proof start_residue. lia.
Qed.

Lemma interior_plus :
  length (filter (λ x, x mod p ≠ 0 ∧ jacobi_symbol (x mod p) p = 1)
            (seqZ (s + 1) (p - 1))) = Z.to_nat (n - 2).
Proof.
  pose proof (interior_count (λ r, r ≠ 0 ∧ jacobi_symbol r p = 1)) as Hc.
  rewrite (nonzero_squares_count p p_prime modulus_gt_2) in Hc;
    [|apply jacobi_one_iff].
  destruct start_residue as [Hr Hq].
  rewrite filter_cons_True in Hc.
  2:{ split; [lia|]. by apply jacobi_one_iff. }
  simpl in Hc.
  replace ((p - 1) `div` 2) with (n - 1) in Hc.
  2:{ replace (2 * n - 1 - 1) with ((n - 1) * 2) by lia.
      by rewrite Z.div_mul. }
  lia.
Qed.

Lemma interior_classes (x : Z) :
  (x mod p = 0
   ∧ ¬ (x mod p ≠ 0 ∧ jacobi_symbol (x mod p) p = 1)
   ∧ ¬ (x mod p ≠ 0 ∧ jacobi_symbol (x mod p) p = -1))
  ∨ (x mod p ≠ 0
     ∧ (x mod p ≠ 0 ∧ jacobi_symbol (x mod p) p = 1)
     ∧ ¬ (x mod p ≠ 0 ∧ jacobi_symbol (x mod p) p = -1))
  ∨ (x mod p ≠ 0
     ∧ ¬ (x mod p ≠ 0 ∧ jacobi_symbol (x mod p) p = 1)
     ∧ (x mod p ≠ 0 ∧ jacobi_symbol (x mod p) p = -1)).
Proof.
  destruct (decide (x mod p = 0)) as [Hx|Hx]; [left; tauto|right].
  pose proof (Z.mod_pos_bound x p).
  destruct (jacobi_classes (x mod p)) as [[-> _]|[-> _]];
    [lia|left|right]; split_and!; tauto || lia.
Qed.

Lemma interior_minus :
  length (filter (λ x, x mod p ≠ 0 ∧ jacobi_symbol (x mod p) p = -1)
            (seqZ (s + 1) (p - 1))) = Z.to_nat (n - 1).
Proof.
  pose proof (filter_length_partition
    (λ x, x mod p = 0)
    (λ x, x mod p ≠ 0 ∧ jacobi_symbol (x mod p) p = 1)
    (λ x, x mod p ≠ 0 ∧ jacobi_symbol (x mod p) p = -1)
    (seqZ (s + 1) (p - 1)) (λ x _, interior_classes x)) as Hpart.
  rewrite length_seqZ, interior_zero, interior_plus in Hpart. lia.
Qed.

(** What [verify_interval] returns at a prime modulus. *)
Lemma verify_interval_prime :
  verify_interval n = Some {|
    rec_n := n; rec_p := p; missing_residue := (n * n) mod p;
    N_plus := n - 2; N_minus := n - 1; N_zero := 1;
    expected_plus := n - 2; expected_minus := n - 1;
    gap := 1; theorem_holds := true |}.
Proof.
  unfold verify_interval.
  assert (Hip : isprime p = true) by by apply isprime_spec.
  rewrite Hip. simpl negb. cbv iota.
  replace (n ^ 2 - (s + 1)) with (p - 1) by lia.
  destruct (spin_scan_counts p (seqZ (s + 1) (p - 1))
              {| n_plus := 0; n_minus := 0; n_zero := 0 |})
    as (Hz & Hp & Hm).
  rewrite interior_zero in Hz. rewrite interior_plus in Hp.
  rewrite interior_minus in Hm. simpl in Hz, Hp, Hm.
  cbv zeta. rewrite Hz, Hp, Hm.
  replace ((p - 3) `div` 2) with (n - 2).
  2:{ replace (2 * n - 1 - 3) with ((n - 2) * 2) by lia.
      by rewrite Z.div_mul. }
  replace ((p - 1) `div` 2) with (n - 1).
  2:{ replace (2 * n - 1 - 1) with ((n - 1) * 2) by lia.
      by rewrite Z.div_mul. }
  rewrite !Z2Nat.id by lia.
  replace (0 + (n - 2)) with (n - 2) by lia.
  replace (0 + (n - 1)) with (n - 1) by lia.
  rewrite !Z.eqb_refl. simpl.
  do 2 f_equal. lia.
Qed.
End PrimeModulus.
End SpinScan.

(** ** The composite run finder *)

Lemma prime_free_snoc (a len : Z) :
  0 ≤ len → prime_free a len → ¬ Z.prime (a + len) → prime_free a (len + 1).
Proof.
  intros Hlen Hpf Hnp y Hy.
  destruct (decide (y = a + len)) as [->|Hne]; [done|].
  apply Hpf. lia.
Qed.

(** Two runs that end at the same place and cannot be extended to the left
    start at the same place. *)
Lemma left_closed_unique (lo e a a' : Z) :
  lo ≤ a → lo ≤ a' → a ≤ e → a' ≤ e →
  prime_free a (e - a) → prime_free a' (e - a') →
  left_closed lo a → left_closed lo a' → a = a'.
Proof.
  intros Hlo Hlo' Hae Hae' Hpf Hpf' Hc Hc'.
  destruct (Z.lt_trichotomy a a') as [Hlt|[Heq|Hgt]]; [|done|].
  - destruct Hc' as [->|Hp]; [lia|].
    exfalso. apply (Hpf (a' - 1)); [lia|done].
  - destruct Hc as [->|Hp]; [lia|].
    exfalso. apply (Hpf' (a - 1)); [lia|done].
Qed.

Section RunFinder.
Context `{Sympy}.

Lemma isprime_false (x : Z) : isprime x = false ↔ ¬ Z.prime x.
Proof. rewrite <- isprime_spec. by destruct (isprime x). Qed.

Lemma gap_inv_init (lo : Z) : gap_inv lo lo ([], []).
Proof.
  unfold gap_inv. simpl. rewrite Z.sub_0_r.
  split_and!; [lia|done| |by left|].
  - intros y Hy. lia.
  - left. split; [done|]. intros a len (?&?&_&_&_&?). lia.
Qed.

(** One iteration keeps the invariant. *)
Lemma gap_inv_step (lo x : Z) (st : list Z * list Z) :
  gap_inv lo x st → gap_inv lo (x + 1) (gap_step st x).
Proof.
  destruct st as [mg cg]. unfold gap_inv, gap_step.
  intros (Hlo & Hcg & Hpf & Hlc & Hbest).
  destruct (isprime x) eqn:Hx; simpl negb; cbv iota.
  - (* [x] is prime: the current run is closed *)
    apply isprime_spec in Hx.
    assert (Hcur : closed_run lo (x + 1)
              (x - Z.of_nat (length cg)) (Z.of_nat (length cg))
            ∨ cg = []).
    { destruct cg as [|y cg']; [by right|left].
      unfold closed_run. simpl length in *.
      split_and!; try done; try lia.
      by replace (x - _ + _) with x by lia. }
    assert (Hsame : ∀ a' len', closed_run lo (x + 1) a' len' →
              closed_run lo x a' len'
              ∨ (a' = x - Z.of_nat (length cg)
                 ∧ len' = Z.of_nat (length cg))).
    { intros a' len' (Hlen & Hlo' & Hpf' & Hlc' & Hp' & Hbefore).
      destruct (decide (a' + len' = x)) as [He|Hne].
      - right.
        assert (a' = x - Z.of_nat (length cg)); [|lia].
        symmetry. apply (left_closed_unique lo x); try done; try lia.
        + by replace (x - (x - _)) with (Z.of_nat (length cg)) by lia.
        + by replace (x - a') with len' by lia.
      - left. unfold closed_run. split_and!; try done. lia. }
    simpl length. rewrite Z.sub_0_r.
    split_and!; [lia|done| | |].
    { intros y Hy. lia. }
    { right. by replace (x + 1 - 1) with x by lia. }
    destruct (Nat.ltb_spec (length mg) (length cg)) as [Hlt|Hge].
    + (* the closed run is strictly longer: it replaces the best *)
      destruct Hcur as [Hcur| ->]; [|simpl in Hlt; lia].
      right. exists (x - Z.of_nat (length cg)).
      split_and!; [done|done|].
      intros a' len' Hrun.
      destruct (Hsame _ _ Hrun) as [Hold|[-> ->]]; [|lia].
      destruct Hbest as [[-> Hnone]|(a & _ & _ & Hmax)].
      * by destruct (Hnone _ _ Hold).
      * destruct (Hmax _ _ Hold). lia.
    + (* otherwise the best so far is kept *)
      destruct Hbest as [[-> Hnone]|(a & Hmg & Hcl & Hmax)].
      * left. split; [done|]. intros a' len' Hrun.
        destruct (Hsame _ _ Hrun) as [Hold|[-> ->]].
        -- by apply (Hnone _ _ Hold).
        -- destruct Hrun as (? & _). simpl in Hge. lia.
      * right. exists a. split_and!; [done| |].
        -- destruct Hcl as (?&?&?&?&?&?).
           unfold closed_run. split_and!; try done. lia.
        -- intros a' len' Hrun.
           destruct (Hsame _ _ Hrun) as [Hold|[-> ->]];
             [by apply Hmax|].
           destruct Hcl as (?&?&?&?&?&?). lia.
  - (* [x] is not prime: the current run grows *)
    apply isprime_false in Hx.
    rewrite length_app. simpl length.
    replace (x + 1 - Z.of_nat (length cg + 1))
      with (x - Z.of_nat (length cg)) by lia.
    replace (Z.of_nat (length cg + 1))
      with (Z.of_nat (length cg) + 1) by lia.
    assert (Hsame : ∀ a' len', closed_run lo (x + 1) a' len' →
              closed_run lo x a' len').
    { intros a' len' (Hlen & Hlo' & Hpf' & Hlc' & Hp' & Hbefore).
      unfold closed_run. split_and!; try done.
      destruct (decide (a' + len' = x)) as [He|Hne]; [|lia].
      by rewrite He in Hp'. }
    split_and!; [done| | |done|].
    + rewrite seqZ_app by lia. rewrite <- Hcg. f_equal.
      by replace (x - _ + _) with x by lia.
    + apply prime_free_snoc; [lia|done|].
      by replace (x - _ + _) with x by lia.
    + destruct Hbest as [[-> Hnone]|(a & Hmg & Hcl & Hmax)].
      * left. split; [done|]. intros a' len' Hrun.
        by apply (Hnone a' len'), Hsame.
      * right. exists a. split_and!; [done|done|].
        intros a' len' Hrun. by apply Hmax, Hsame.
Qed.

Lemma gap_inv_foldl (lo : Z) (k : nat) (x : Z) (st : list Z * list Z) :
  gap_inv lo x st →
  gap_inv lo (x + Z.of_nat k) (foldl gap_step st (seqZ x (Z.of_nat k))).
Proof.
  revert x st. induction k as [|k IH]; intros x st Hinv.
  - simpl. by rewrite Z.add_0_r.
  - rewrite seqZ_cons by lia. simpl foldl.
    replace (Z.pred (Z.of_nat (S k))) with (Z.of_nat k) by lia.
    replace (x + Z.of_nat (S k)) with (Z.succ x + Z.of_nat k) by lia.
    apply IH. replace (Z.succ x) with (x + 1) by lia.
    by apply gap_inv_step.
Qed.

(** The scan of [lo], ..., [hi] returns the earliest of the longest
    maximal runs of the interval, or nothing when there is none. *)
Lemma gap_scan_spec (lo hi : Z) :
  lo ≤ hi + 1 →
  let run := gap_scan (seqZ lo (hi + 1 - lo)) in
  (run = [] ∧ ∀ a len, ¬ maximal_run lo hi a len)
  ∨ (∃ a, run = seqZ a (Z.of_nat (length run))
       ∧ maximal_run lo hi a (Z.of_nat (length run))
       ∧ ∀ a' len', maximal_run lo hi a' len' →
           len' ≤ Z.of_nat (length run)
           ∧ (len' = Z.of_nat (length run) → a ≤ a')).
Proof.
  intros Hlh. unfold gap_scan.
  pose proof (gap_inv_foldl lo (Z.to_nat (hi + 1 - lo)) lo ([], [])
                (gap_inv_init lo)) as Hinv.
  rewrite Z2Nat.id in Hinv by lia.
  replace (lo + (hi + 1 - lo)) with (hi + 1) in Hinv by lia.
  destruct (foldl gap_step _ _) as [mg cg].
  unfold gap_inv in Hinv. destruct Hinv as (Hlo & Hcg & Hpf & Hlc & Hbest).
  cbv zeta. unfold gap_final.
  assert (Hcur : cg = [] ∨
            maximal_run lo hi (hi + 1 - Z.of_nat (length cg))
              (Z.of_nat (length cg))).
  { destruct cg as [|y cg']; [by left|right].
    unfold maximal_run. simpl length in *.
    split_and!; try done; try lia. }
  assert (Hsame : ∀ a' len', maximal_run lo hi a' len' →
            closed_run lo (hi + 1) a' len'
            ∨ (a' = hi + 1 - Z.of_nat (length cg)
               ∧ len' = Z.of_nat (length cg))).
  { intros a' len' (Hlen & Hlo' & Hhi & Hpf' & Hlc' & Hend).
    destruct (decide (a' + len' - 1 = hi)) as [He|Hne].
    - right.
      assert (a' = hi + 1 - Z.of_nat (length cg)); [|lia].
      symmetry. apply (left_closed_unique lo (hi + 1)); try done; try lia.
      + by replace (hi + 1 - (hi + 1 - _))
          with (Z.of_nat (length cg)) by lia.
      + by replace (hi + 1 - a') with len' by lia.
    - left. destruct Hend as [?|Hp]; [done|].
      unfold closed_run. split_and!; try done. lia. }
  assert (Hclosed : ∀ a len, closed_run lo (hi + 1) a len →
            maximal_run lo hi a len).
  { intros a len (?&?&?&?&?&?). unfold maximal_run.
    split_and!; try done; [lia|by right]. }
  destruct (Nat.ltb_spec (length mg) (length cg)) as [Hlt|Hge].
  - destruct Hcur as [->|Hcur]; [simpl in Hlt; lia|].
    right. exists (hi + 1 - Z.of_nat (length cg)).
    split_and!; [done|done|].
    intros a' len' Hrun.
    destruct (Hsame _ _ Hrun) as [Hold|[-> ->]]; [|lia].
    destruct Hbest as [[-> Hnone]|(a & _ & _ & Hmax)].
    + by destruct (Hnone _ _ Hold).
    + destruct (Hmax _ _ Hold). lia.
  - destruct Hbest as [[-> Hnone]|(a & Hmg & Hcl & Hmax)].
    + left. split; [done|]. intros a' len' Hrun.
      destruct (Hsame _ _ Hrun) as [Hold|[-> ->]].
      * by apply (Hnone _ _ Hold).
      * destruct Hrun as (? & _). simpl in Hge. lia.
    + right. exists a. split_and!; [done| |].
      * apply Hclosed. destruct Hcl as (?&?&?&?&?&?).
        unfold closed_run. split_and!; try done. lia.
      * intros a' len' Hrun.
        destruct (Hsame _ _ Hrun) as [Hold|[-> ->]]; [by apply Hmax|].
        destruct Hcl as (?&?&?&?&?&?). lia.
Qed.
End RunFinder.

(** ** Products and radicals *)

Lemma foldl_mul_product (acc : Z) (l : list Z) :
  foldl (λ a x, a * x) acc l = acc * product l.
Proof.
  revert acc. induction l as [|x l IH]; intros acc; simpl.
  - lia.
  - rewrite IH. lia.
Qed.

Lemma product_Permutation (l k : list Z) : l ≡ₚ k → product l = product k.
Proof.
  induction 1 as [|x l k _ IH|x y l|l k m _ IH1 _ IH2]; simpl.
  - done.
  - by rewrite IH.
  - lia.
  - congruence.
Qed.

Lemma product_pos (l : list Z) : Forall (λ c, 0 < c) l → 0 < product l.
Proof. induction 1; simpl; lia. Qed.

Lemma product_gt_1 (l : list Z) :
  l ≠ [] → Forall (λ c, 1 < c) l → 1 < product l.
Proof.
  intros Hne Hall. destruct Hall as [|c l Hc Hall]; [done|]. simpl.
  assert (0 < product l).
  { apply product_pos. eapply Forall_impl; [done|]. simpl. lia. }
  nia.
Qed.

(** Euclid's lemma over a list. *)
Lemma prime_divide_product (q : Z) (l : list Z) :
  Z.prime q → (q | product l) ↔ ∃ c, c ∈ l ∧ (q | c).
Proof.
  intros Hq. induction l as [|x l IH]; simpl.
  - split.
    + intros Hd. apply Z.divide_1_r_nonneg in Hd.
      * pose proof (Z.prime_ge_2 _ Hq). lia.
      * pose proof (Z.prime_ge_2 _ Hq). lia.
    + intros (c & Hc & _). by apply elem_of_nil in Hc.
  - rewrite Z.divide_prime_mul by done. rewrite IH. split.
    + intros [Hx|(c & Hc & Hd)].
      * exists x. split; [left|done].
      * exists c. split; [by right|done].
    + intros (c & Hc & Hd). apply elem_of_cons in Hc as [->|Hc].
      * by left.
      * right. by exists c.
Qed.

(** A number greater than [1] has a prime divisor. *)
Lemma prime_divisor_exists (m : Z) : 1 < m → ∃ q, Z.prime q ∧ (q | m).
Proof.
  intros Hm.
  assert (Hk : ∃ k : nat, m ≤ Z.of_nat k) by (exists (Z.to_nat m); lia).
  destruct Hk as [k Hk]. revert m Hm Hk.
  induction k as [|k IH]; intros m Hm Hk; [lia|].
  destruct (decide (Exists (λ d, m mod d = 0) (seqZ 2 (m - 2))))
    as [Hex|Hno].
  - apply Exists_exists in Hex as (d & Hd & Hz).
    apply elem_of_seqZ in Hd. apply mod_zero_divide in Hz; [|lia].
    destruct (IH d) as (q & Hq & Hqd); [lia|lia|].
    exists q. split; [done|]. by apply Z.divide_trans with d.
  - exists m. split; [|apply Z.divide_refl].
    split; [done|]. intros d Hd Hdiv. apply Hno.
    apply Exists_exists. exists d. split.
    + apply elem_of_seqZ. lia.
    + apply mod_zero_divide; [lia|done].
Qed.

Lemma coprime_divide_mul (a b m : Z) :
  Z.gcd a b = 1 → (a | m) → (b | m) → (a * b | m).
Proof.
  intros Hg [k ->] Hb.
  rewrite Z.gcd_comm in Hg.
  rewrite Z.mul_comm in Hb. apply Z.gauss in Hb; [|done].
  destruct Hb as [j ->]. exists j. lia.
Qed.

(** The product of distinct primes that divide [m] divides [m]. *)
Lemma distinct_primes_divide (qs : list Z) (m : Z) :
  NoDup qs → Forall (λ q, Z.prime q ∧ (q | m)) qs → (product qs | m).
Proof.
  induction 1 as [|q qs Hq Hnd IH]; intros Hall; simpl.
  - apply Z.divide_1_l.
  - apply Forall_cons in Hall as [[Hp Hd] Hall].
    apply coprime_divide_mul; [|done|by apply IH].
    apply Z.coprime_prime_l; [done|].
    intros Hdiv. apply prime_divide_product in Hdiv as (q' & Hq' & Hqq');
      [|done].
    rewrite Forall_forall in Hall. destruct (Hall _ Hq') as [Hp' _].
    apply Z.divide_prime_prime in Hqq'; [|done..]. by subst q'.
Qed.

Lemma sum_logs_ok (acc : LogNum) (l : list Z) :
  Forall (λ c, 0 < c) l → sum_logs acc l = Ok (Ln (arg acc * product l)).
Proof.
  intros Hall. revert acc. induction Hall as [|c l Hc _ IH]; intros acc; simpl.
  - destruct acc as [a]. simpl. by rewrite Z.mul_1_r.
  - unfold math_log. destruct (Z.leb_spec c 0) as [?|_]; [lia|]. simpl.
    rewrite IH. simpl. do 2 f_equal. lia.
Qed.

Section Radical.
Context `{Sympy}.

(** The set built by the loop of [compute_wronskian]: the primes that
    divide some member. *)
Lemma elem_of_collect_primes (acc : gset Z) (l : list Z) (q : Z) :
  Forall (λ c, 1 ≤ c) l →
  q ∈ collect_primes acc l ↔
    q ∈ acc ∨ (Z.prime q ∧ ∃ c, c ∈ l ∧ (q | c)).
Proof.
  intros Hall. revert acc.
  induction Hall as [|c l Hc _ IH]; intros acc; simpl.
  - split; [by left|]. intros [?|(_ & c & Hc & _)]; [done|].
    by apply elem_of_nil in Hc.
  - rewrite IH, elem_of_union, elem_of_list_to_set.
    rewrite factorint_keys_spec by done. split.
    + intros [[?|[? ?]]|(? & c' & ? & ?)].
      * by left.
      * right. split; [done|]. exists c. split; [left|done].
      * right. split; [done|]. exists c'. split; [by right|done].
    + intros [?|(Hq & c' & Hc' & Hd)]; [by left; left|].
      apply elem_of_cons in Hc' as [->|Hc'].
      * left. by right.
      * right. split; [done|]. by exists c'.
Qed.

Lemma collect_primes_divide_product (l : list Z) (q : Z) :
  Forall (λ c, 1 ≤ c) l →
  q ∈ elements (collect_primes ∅ l) ↔ Z.prime q ∧ (q | product l).
Proof.
  intros Hall. rewrite elem_of_elements, elem_of_collect_primes by done.
  split.
  - intros [?|[Hq Hc]]; [set_solver|]. split; [done|].
    by apply prime_divide_product.
  - intros [Hq Hd]. right. split; [done|].
    by apply prime_divide_product.
Qed.

(** The product of the collected primes is at least the radical of the
    product of the members: it divides that product. *)
Lemma collected_primes_divide (l : list Z) :
  Forall (λ c, 1 ≤ c) l →
  (product (elements (collect_primes ∅ l)) | product l).
Proof.
  intros Hall. apply distinct_primes_divide; [apply NoDup_elements|].
  apply Forall_forall. intros q Hq.
  by apply collect_primes_divide_product in Hq.
Qed.

Lemma collected_primes_pos (l : list Z) :
  Forall (λ c, 1 ≤ c) l →
  Forall (λ q, 0 < q) (elements (collect_primes ∅ l)).
Proof.
  intros Hall. apply Forall_forall. intros q Hq.
  apply collect_primes_divide_product in Hq as [Hq _]; [|done].
  pose proof (Z.prime_ge_2 _ Hq). lia.
Qed.

(** [compute_radical] of a product is the product of the primes collected
    member by member. *)
Lemma compute_radical_product (l : list Z) :
  Forall (λ c, 1 ≤ c) l →
  compute_radical (product l) = product (elements (collect_primes ∅ l)).
Proof.
  intros Hall. unfold compute_radical.
  assert (Hpos : 0 < product l).
  { apply product_pos. eapply Forall_impl; [done|]. simpl. lia. }
  destruct (Z.leb_spec (product l) 1) as [Hle|Hgt].
  - assert (Hone : product l = 1) by lia.
    assert (Hnil : elements (collect_primes ∅ l) = []); [|by rewrite Hnil].
    apply elem_of_nil_inv. intros q Hq.
    apply collect_primes_divide_product in Hq as [Hq Hd]; [|done].
    rewrite Hone in Hd. apply Z.divide_1_r_nonneg in Hd.
    + pose proof (Z.prime_ge_2 _ Hq). lia.
    + pose proof (Z.prime_ge_2 _ Hq). lia.
  - rewrite foldl_mul_product, Z.mul_1_l.
    apply product_Permutation, NoDup_Permutation.
    + apply factorint_keys_NoDup. lia.
    + apply NoDup_elements.
    + intros q. rewrite factorint_keys_spec by lia.
      by rewrite collect_primes_divide_product.
Qed.

(** A member greater than [1] puts a prime into the set. *)
Lemma collected_primes_gt_1 (l : list Z) :
  Forall (λ c, 1 ≤ c) l → (∃ c, c ∈ l ∧ 1 < c) →
  1 < product (elements (collect_primes ∅ l)).
Proof.
  intros Hall (c & Hc & Hgt).
  rewrite <- compute_radical_product by done.
  unfold compute_radical.
  assert (Hpos : 0 < product l).
  { apply product_pos. eapply Forall_impl; [done|]. simpl. lia. }
  assert (Hcl : (c | product l)).
  { clear -Hc. induction l as [|x l IH]; [by apply elem_of_nil in Hc|].
    simpl. apply elem_of_cons in Hc as [->|Hc].
    - apply Z.divide_factor_l.
    - apply Z.divide_mul_r. by apply IH. }
  assert (Hprod : 1 < product l).
  { apply Z.divide_pos_le in Hcl; lia. }
  destruct (Z.leb_spec (product l) 1) as [?|_]; [lia|].
  rewrite foldl_mul_product, Z.mul_1_l.
  destruct (factorint_keys (product l)) as [|q qs] eqn:Hkeys.
  - exfalso.
    destruct (prime_divisor_exists (product l) Hprod) as (q & Hq & Hd).
    assert (Hin : q ∈ factorint_keys (product l)).
    { apply factorint_keys_spec; [lia|done]. }
    rewrite Hkeys in Hin. by apply elem_of_nil in Hin.
  - assert (Hall' : Forall (λ q, 0 < q) (q :: qs) ∧ 2 ≤ q).
    { split.
      - apply Forall_forall. intros q' Hq'. rewrite <- Hkeys in Hq'.
        apply factorint_keys_spec in Hq' as [Hq' _]; [|lia].
        pose proof (Z.prime_ge_2 _ Hq'). lia.
      - assert (Hq : q ∈ factorint_keys (product l)).
        { rewrite Hkeys. left. }
        apply factorint_keys_spec in Hq as [Hq _]; [|lia].
        by apply Z.prime_ge_2. }
    destruct Hall' as [Hall' Hq2].
    apply Forall_cons in Hall' as [_ Hqs]. apply product_pos in Hqs.
    simpl. nia.
Qed.
End Radical.

(** ** Runs of a Legendre interval *)

Lemma prime_or_not (x : Z) : Z.prime x ∨ ¬ Z.prime x.
Proof.
  rewrite <- trial_isprime_spec. destruct (trial_isprime x); [by left|by right].
Qed.

(** A non-prime left endpoint starts a maximal run. *)
Lemma maximal_run_exists (lo hi : Z) :
  lo ≤ hi → ¬ Z.prime lo → ∃ len, maximal_run lo hi lo len.
Proof.
  intros Hle Hnp.
  assert (Hgrow : ∀ (j : nat) (len : Z),
            0 < len → prime_free lo len → lo + len - 1 + Z.of_nat j = hi →
            ∃ len', maximal_run lo hi lo len').
  { induction j as [|j IH]; intros len Hlen Hpf Hhi.
    - exists len. unfold maximal_run.
      split_and!; [done|lia|lia|done|by left|left; lia].
    - destruct (prime_or_not (lo + len)) as [Hp|Hn].
      + exists len. unfold maximal_run.
        split_and!; [done|lia|lia|done|by left|by right].
      + apply (IH (len + 1)); [lia| |lia].
        apply prime_free_snoc; [lia|done|done]. }
  apply (Hgrow (Z.to_nat (hi - lo)) 1); [lia| |lia].
  intros y Hy. by replace y with lo by lia.
Qed.

Section LegendreRuns.
Context `{Sympy}.

(** [gap_scan_spec] without the side condition: an empty interval has no
    run. *)
Lemma gap_scan_interval (lo hi : Z) :
  let run := gap_scan (seqZ lo (hi + 1 - lo)) in
  (run = [] ∧ ∀ a len, ¬ maximal_run lo hi a len)
  ∨ (∃ a, run = seqZ a (Z.of_nat (length run))
       ∧ maximal_run lo hi a (Z.of_nat (length run))
       ∧ ∀ a' len', maximal_run lo hi a' len' →
           len' ≤ Z.of_nat (length run)
           ∧ (len' = Z.of_nat (length run) → a ≤ a')).
Proof.
  destruct (decide (lo ≤ hi + 1)) as [Hle|Hgt]; [by apply gap_scan_spec|].
  left. unfold seqZ. replace (Z.to_nat (hi + 1 - lo)) with 0%nat by lia.
  split; [done|]. intros a len (?&?&?&_). lia.
Qed.

(** The run found in [[(n-1)^2, n^2]] for [n >= 2]: non-empty, contiguous,
    free of primes, and closed on both sides. *)
Lemma find_max_composite_gap_run (n : Z) :
  2 ≤ n →
  let run := find_max_composite_gap n in
  run ≠ []
  ∧ ∃ a, run = seqZ a (Z.of_nat (length run))
      ∧ maximal_run ((n - 1) ^ 2) (n ^ 2) a (Z.of_nat (length run)).
Proof.
  intros Hn. unfold find_max_composite_gap.
  destruct (gap_scan_interval ((n - 1) ^ 2) (n ^ 2))
    as [[_ Hnone]|(a & Hrun & Hmax & _)].
  - exfalso.
    destruct (maximal_run_exists ((n - 1) ^ 2) (n ^ 2)) as [len Hlen].
    + nia.
    + rewrite Z.pow_2_r. apply Z.not_prime_square.
    + by apply (Hnone _ _ Hlen).
  - cbv zeta. split; [|by exists a].
    destruct Hmax as (Hlen & _). intros Hnil. rewrite Hnil in Hlen.
    simpl in Hlen. lia.
Qed.

Lemma find_max_composite_gap_members (n x : Z) :
  2 ≤ n → x ∈ find_max_composite_gap n →
  (n - 1) ^ 2 ≤ x ≤ n ^ 2 ∧ ¬ Z.prime x.
Proof.
  intros Hn Hx.
  destruct (find_max_composite_gap_run n Hn) as (_ & a & Hrun & Hmax).
  rewrite Hrun, elem_of_seqZ in Hx.
  destruct Hmax as (_ & ? & ? & Hpf & _).
  split; [lia|]. by apply Hpf.
Qed.

(** From [n = 3] on every member is composite. *)
Lemma find_max_composite_gap_composite (n : Z) :
  3 ≤ n → Forall composite (find_max_composite_gap n).
Proof.
  intros Hn. apply Forall_forall. intros x Hx.
  apply find_max_composite_gap_members in Hx as [Hx Hnp]; [|lia].
  split; [nia|done].
Qed.

(** ** The radical volume calculator *)

Lemma compute_wronskian_value (l : list Z) :
  l ≠ [] → Forall (λ c, 1 ≤ c) l →
  let V := product l in
  let R := product (elements (collect_primes ∅ l)) in
  compute_wronskian l
  = Ok (Some (Ln V), Some (Ln R),
        Some (if 1 <? R then Quot (Ln V) (Ln R) else Infinity)).
Proof.
  intros Hne Hall. cbv zeta. unfold compute_wronskian.
  destruct l as [|c l]; [done|].
  rewrite (sum_logs_ok (Ln 1) (c :: l)).
  2:{ eapply Forall_impl; [exact Hall|]. simpl. lia. }
  rewrite (sum_logs_ok (Ln 1) (elements _))
    by by apply collected_primes_pos.
  generalize (product (elements (collect_primes ∅ (c :: l)))).
  generalize (product (c :: l)). intros V R.
  unfold mbind, result_bind. cbv beta iota.
  unfold log_positive, log_div. simpl arg. rewrite !Z.mul_1_l.
  destruct (Z.ltb_spec 1 R) as [Hgt|Hle]; [|done].
  destruct (Z.eqb_spec R 1); [lia|done].
Qed.

(** The collected primes have product [1] exactly when every member is
    [1]. *)
Lemma collected_primes_unit (l : list Z) :
  Forall (λ c, 1 ≤ c) l →
  product (elements (collect_primes ∅ l)) = 1 ↔ Forall (λ c, c = 1) l.
Proof.
  intros Hall. split.
  - intros Hone. apply Forall_forall. intros c Hc.
    rewrite Forall_forall in Hall. pose proof (Hall c Hc).
    destruct (decide (c = 1)) as [|Hne]; [done|].
    assert (1 < product (elements (collect_primes ∅ l))); [|lia].
    apply collected_primes_gt_1; [by apply Forall_forall|].
    exists c. split; [done|lia].
  - intros Hones.
    assert (Hprod : product l = 1).
    { clear Hall. induction Hones as [|c l -> _ IH]; simpl; [done|lia]. }
    pose proof (collected_primes_divide l Hall) as Hd.
    rewrite Hprod in Hd.
    apply Z.divide_1_r_nonneg in Hd; [done|].
    pose proof (product_pos _ (collected_primes_pos l Hall)). lia.
Qed.

(** The guarded division of [weapon_B_wronskian_volume]. *)
Lemma weapon_B_volume_value (l : list Z) :
  l ≠ [] → Forall (λ c, 1 ≤ c) l →
  let P := total_product l in
  let R := compute_radical P in
  weapon_B_volume l
  = Ok (Some (P, R, if 1 <? R then Quot (Ln P) (Ln R) else RatioOne)).
Proof.
  intros Hne Hall. cbv zeta. unfold weapon_B_volume.
  destruct l as [|c l]; [done|]. simpl length. simpl Nat.eqb. cbv iota.
  assert (Htp : 0 < total_product (c :: l)).
  { unfold total_product. rewrite foldl_mul_product, Z.mul_1_l.
    apply product_pos. eapply Forall_impl; [exact Hall|]. simpl. lia. }
  revert Htp. generalize (total_product (c :: l)). intros P HP.
  assert (HR : 0 < compute_radical P).
  { unfold compute_radical. destruct (Z.leb_spec P 1); [lia|].
    rewrite foldl_mul_product, Z.mul_1_l. apply product_pos.
    apply Forall_forall. intros q Hq.
    apply factorint_keys_spec in Hq as [Hq _]; [|lia].
    pose proof (Z.prime_ge_2 _ Hq). lia. }
  revert HR. generalize (compute_radical P). intros R HR.
  unfold math_log, log_div.
  destruct (Z.leb_spec P 0); [lia|].
  destruct (Z.leb_spec R 0); [lia|].
  destruct (Z.ltb_spec 1 R) as [Hgt|Hle]; [|done]. simpl.
  destruct (Z.eqb_spec R 1); [lia|done].
Qed.
End LegendreRuns.

(** ** The batch driver *)

Section BatchDriver.
Context `{Sympy}.

Lemma verify_interval_Some (n : Z) (r : SpinRecord) :
  verify_interval n = Some r → Z.prime (2 * n - 1) ∧ rec_n r = n.
Proof.
  unfold verify_interval.
  destruct (isprime (2 * n - 1)) eqn:Hp; simpl; [|done].
  intros [= <-]. split; [by apply isprime_spec|done].
Qed.

Lemma verify_interval_None (n : Z) :
  ¬ Z.prime (2 * n - 1) → verify_interval n = None.
Proof.
  intros Hnp. unfold verify_interval.
  destruct (isprime (2 * n - 1)) eqn:Hp; [|done].
  by apply isprime_spec in Hp.
Qed.

(** The driver counts the qualifying [n] and records nothing else. *)
Lemma batch_foldl_spec (xs : list Z) (b : Batch) :
  let b' := foldl batch_step b xs in
  total b' = total b
    + Z.of_nat (length (filter (λ m, isprime (2 * m - 1) = true) xs))
  ∧ ∀ r, r ∈ results b' →
      r ∈ results b ∨ ∃ m, m ∈ xs ∧ verify_interval m = Some r.
Proof.
  revert b. induction xs as [|x xs IH]; intros b; simpl.
  { split; [lia|]. by left. }
  destruct (IH (batch_step b x)) as [Htot Hres].
  rewrite Htot, filter_cons. unfold batch_step at 2 3.
  split.
  - unfold batch_step, verify_interval.
    case_decide as Hp.
    + rewrite Hp. simpl. lia.
    + apply not_true_is_false in Hp. rewrite Hp. simpl. lia.
  - intros r Hr. apply Hres in Hr as [Hr|(m & Hm & Hv)].
    + unfold batch_step in Hr.
      destruct (verify_interval x) as [rx|] eqn:Hx; [|by left].
      simpl in Hr. apply elem_of_app in Hr as [Hr|Hr]; [by left|].
      apply list_elem_of_singleton in Hr as ->.
      right. exists x. split; [left|done].
    + right. exists m. split; [by right|done].
Qed.
End BatchDriver.

(** ** Independence of the service *)

Lemma isprime_agree (S1 S2 : Sympy) (x : Z) : @isprime S1 x = @isprime S2 x.
Proof.
  destruct (@isprime S1 x) eqn:H1, (@isprime S2 x) eqn:H2; try done.
  - apply isprime_spec, (@isprime_spec S2) in H1. congruence.
  - apply isprime_spec, (@isprime_spec S1) in H2. congruence.
Qed.

Lemma gap_step_agree (S1 S2 : Sympy) (st : list Z * list Z) (x : Z) :
  @gap_step S1 st x = @gap_step S2 st x.
Proof. unfold gap_step. by rewrite (isprime_agree S1 S2). Qed.

Lemma gap_scan_agree (S1 S2 : Sympy) (xs : list Z) :
  @gap_scan S1 xs = @gap_scan S2 xs.
Proof.
  unfold gap_scan. f_equal. generalize (@nil Z, @nil Z).
  induction xs as [|x xs IH]; intros st; simpl; [done|].
  by rewrite (gap_step_agree S1 S2), IH.
Qed.

Lemma verify_interval_agree (S1 S2 : Sympy) (n : Z) :
  @verify_interval S1 n = @verify_interval S2 n.
Proof.
  destruct (prime_or_not (2 * n - 1)) as [Hp|Hnp].
  - pose proof (Z.prime_ge_2 _ Hp).
    by rewrite !verify_interval_prime by (done || lia).
  - by rewrite !verify_interval_None.
Qed.

(** ** Logarithms as real numbers *)

Lemma log_value_add (a b : LogNum) :
  0 < arg a → 0 < arg b →
  log_value (log_add a b) = (log_value a + log_value b)%R.
Proof.
  intros Ha Hb. unfold log_value, log_add. simpl.
  rewrite mult_IZR. apply ln_mult; by apply IZR_lt.
Qed.

Lemma log_value_pos (a : Z) : 1 < a → (0 < log_value (Ln a))%R.
Proof.
  intros Ha. unfold log_value. simpl. rewrite <- ln_1.
  apply ln_increasing; [lra|]. by apply IZR_lt.
Qed.




(** ** The logarithm table

    The entries of [log_table] are checked against the real logarithm:
    [exp] is bounded from below by [1 + t <= exp t] at a small [t] and
    repeated squaring in integer fixed-point arithmetic, rounded down. *)









(** * The claims *)

(** C1. For every [n >= 2] such that [p = 2n - 1] is prime, [verify_interval]
    returns a record whose counters satisfy
    [N_plus + N_minus + N_zero = p - 1], [N_zero = 1],
    [N_minus - N_plus = 1], [N_plus = (p - 3) / 2] and
    [N_minus = (p - 1) / 2], and whose [theorem_holds] flag is true. *)
Theorem C1_spin_asymmetry `{Sympy} (n : Z) :
  2 ≤ n → Z.prime (2 * n - 1) →
  ∃ r, verify_interval n = Some r
    ∧ rec_p r = 2 * n - 1
    ∧ N_plus r + N_minus r + N_zero r = rec_p r - 1
    ∧ N_zero r = 1
    ∧ N_minus r - N_plus r = 1
    ∧ N_plus r = (rec_p r - 3) `div` 2
    ∧ N_minus r = (rec_p r - 1) `div` 2
    ∧ gap r = 1
    ∧ theorem_holds r = true.
Proof.
  intros Hn Hp. eexists. split; [by apply verify_interval_prime|]. simpl.
  replace (2 * n - 1 - 3) with ((n - 2) * 2) by lia.
  replace (2 * n - 1 - 1) with ((n - 1) * 2) by lia.
  rewrite !Z.div_mul by lia. split_and!; done || lia.
Qed.

Lemma C1_spin_asymmetry_witness :
  2 ≤ 21 ∧ Z.prime (2 * 21 - 1)
  ∧ ∃ r, @verify_interval reference_sympy 21 = Some r
      ∧ rec_p r = 2 * 21 - 1
      ∧ N_plus r + N_minus r + N_zero r = rec_p r - 1
      ∧ N_zero r = 1
      ∧ N_minus r - N_plus r = 1
      ∧ N_plus r = (rec_p r - 3) `div` 2
      ∧ N_minus r = (rec_p r - 1) `div` 2
      ∧ gap r = 1
      ∧ theorem_holds r = true.
Proof.
  assert (Hp : Z.prime (2 * 21 - 1)).
  { apply trial_isprime_spec. vm_compute. reflexivity. }
  split; [lia|]. split; [exact Hp|].
  apply (@C1_spin_asymmetry reference_sympy 21); [lia|exact Hp].
Defined.

(** C2. At [n = 2] the run finder returns [[1]], and [1] is not composite:
    the scan tests [not isprime(x)], which holds of [1]. *)
Theorem C2_unit_in_run `{Sympy} :
  find_max_composite_gap 2 = [1]
  ∧ ¬ composite 1
  ∧ ¬ Forall composite (find_max_composite_gap 2).
Proof.
  assert (Hrun : find_max_composite_gap 2 = [1]).
  { unfold find_max_composite_gap, gap_scan.
    change (seqZ ((2 - 1) ^ 2) (2 ^ 2 + 1 - (2 - 1) ^ 2)) with [1; 2; 3; 4].
    assert (H1 : isprime 1 = false) by apply isprime_false, Z.not_prime_1.
    assert (H2 : isprime 2 = true) by apply isprime_spec, Z.prime_2.
    assert (H3 : isprime 3 = true) by apply isprime_spec, Z.prime_3.
    assert (H4 : isprime 4 = false).
    { apply isprime_false. apply (Z.not_prime_square 2). }
    simpl. unfold gap_step. rewrite H1. simpl. rewrite H2. simpl.
    rewrite H3. simpl. rewrite H4. simpl. done. }
  assert (Hone : ¬ composite 1) by (intros [? _]; lia).
  split_and!; [done|done|].
  rewrite Hrun. intros Hall. by apply Forall_cons in Hall as [? _].
Qed.

(** C3, amended.  On a run of positive integers [compute_wronskian] returns
    the [None] triple exactly for the empty run and the infinity sentinel
    exactly for a non-empty run all of whose members are [1]; every other
    run has a strictly positive log-radical and an ordinary quotient as its
    ratio.  For every [n >= 3] the run returned by the finder is of the last
    kind. *)
Theorem C3_sentinel_cases `{Sympy} (run : list Z) (n : Z) :
  Forall (λ c, 1 ≤ c) run → 3 ≤ n →
  ((run = [] ∧ compute_wronskian run = Ok (None, None, None))
   ∨ (run ≠ [] ∧ Forall (λ c, c = 1) run
      ∧ compute_wronskian run
        = Ok (Some (Ln 1), Some (Ln 1), Some Infinity))
   ∨ (Exists (λ c, 1 < c) run
      ∧ ∃ V R, 1 < R ∧ (0 < log_value (Ln R))%R
        ∧ compute_wronskian run
          = Ok (Some (Ln V), Some (Ln R), Some (Quot (Ln V) (Ln R)))))
  ∧ (find_max_composite_gap n ≠ []
     ∧ ∃ V R, 1 < R ∧ (0 < log_value (Ln R))%R
       ∧ compute_wronskian (find_max_composite_gap n)
         = Ok (Some (Ln V), Some (Ln R), Some (Quot (Ln V) (Ln R)))).
Proof.
  intros Hall Hn.
  assert (Hquot : ∀ l, l ≠ [] → Forall (λ c, 1 ≤ c) l →
            Exists (λ c, 1 < c) l →
            ∃ V R, 1 < R ∧ (0 < log_value (Ln R))%R
              ∧ compute_wronskian l
                = Ok (Some (Ln V), Some (Ln R), Some (Quot (Ln V) (Ln R)))).
  { intros l Hne Hl Hex. eexists _, _.
    assert (Hgt : 1 < product (elements (collect_primes ∅ l))).
    { apply collected_primes_gt_1; [done|]. by apply Exists_exists in Hex. }
    split; [exact Hgt|]. split; [by apply log_value_pos|].
    rewrite compute_wronskian_value by done.
    apply Z.ltb_lt in Hgt. by rewrite Hgt. }
  split.
  - destruct run as [|c run]; [by left|right].
    destruct (decide (Forall (λ c, c = 1) (c :: run))) as [Hones|Hex].
    + left. split_and!; [done|done|].
      rewrite compute_wronskian_value by done.
      assert (Hprod : product (c :: run) = 1).
      { clear -Hones. induction Hones as [|x l -> _ IH]; simpl; [done|lia]. }
      apply collected_primes_unit in Hones; [|done].
      by rewrite Hones, Hprod.
    + right. apply not_Forall_Exists in Hex; [|apply _].
      assert (Hex' : Exists (λ c, 1 < c) (c :: run)).
      { apply Exists_exists. apply Exists_exists in Hex as (x & Hx & Hne).
        rewrite Forall_forall in Hall. pose proof (Hall x Hx).
        exists x. split; [done|]. simpl in Hne. lia. }
      split; [done|]. by apply Hquot.
  - destruct (find_max_composite_gap_run n ltac:(lia)) as [Hne _].
    pose proof (find_max_composite_gap_composite n Hn) as Hcomp.
    split; [done|]. apply Hquot; [done| |].
    + eapply Forall_impl; [exact Hcomp|]. intros x [? _]. lia.
    + destruct (find_max_composite_gap n) as [|x l]; [done|].
      apply Forall_cons in Hcomp as [[? _] _]. by left.
Qed.

Lemma C3_sentinel_cases_witness :
  Forall (λ c, 1 ≤ c) [8; 9] ∧ 3 ≤ 3
  ∧ @compute_wronskian reference_sympy (@find_max_composite_gap reference_sympy 3)
    = Ok (Some (Ln 72), Some (Ln 6), Some (Quot (Ln 72) (Ln 6)))
  ∧ (@find_max_composite_gap reference_sympy 3 ≠ []
     ∧ ∃ V R, 1 < R ∧ (0 < log_value (Ln R))%R
       ∧ @compute_wronskian reference_sympy
           (@find_max_composite_gap reference_sympy 3)
         = Ok (Some (Ln V), Some (Ln R), Some (Quot (Ln V) (Ln R)))).
Proof.
  assert (Hall : Forall (λ c, 1 ≤ c) [8; 9]) by (repeat constructor; lia).
  split; [exact Hall|]. split; [lia|]. split; [vm_compute; reflexivity|].
  exact (proj2 (@C3_sentinel_cases reference_sympy [8; 9] 3 Hall ltac:(lia))).
Defined.

(** C3, as stated, fails: at [n = 2] the finder returns the non-empty run
    [[1]], whose log-radical is [0] and whose ratio is the infinity
    sentinel. *)
Lemma C3_counterexample :
  @find_max_composite_gap reference_sympy 2 = [1]
  ∧ [1] ≠ @nil Z
  ∧ @compute_wronskian reference_sympy [1]
    = Ok (Some (Ln 1), Some (Ln 1), Some Infinity)
  ∧ log_positive (Ln 1) = false
  ∧ log_value (Ln 1) = 0%R.
Proof.
  split_and!; [vm_compute; reflexivity|done|vm_compute; reflexivity|done|].
  unfold log_value. simpl. apply ln_1.
Qed.




(** C5. The run returned for the interval [[(n-1)^2, n^2]] is the earliest
    of the longest maximal runs: no maximal run of the interval is longer,
    and a maximal run of the same length does not start before it.  Maximal
    runs that end exactly at [n^2] take part in the comparison.  The best
    run is replaced only by a strictly longer one. *)
Theorem C5_earliest_longest_run `{Sympy} (n : Z) :
  let lo := (n - 1) ^ 2 in
  let hi := n ^ 2 in
  let run := find_max_composite_gap n in
  ((run = [] ∧ ∀ a len, ¬ maximal_run lo hi a len)
   ∨ (∃ a, run = seqZ a (Z.of_nat (length run))
        ∧ maximal_run lo hi a (Z.of_nat (length run))
        ∧ ∀ a' len', maximal_run lo hi a' len' →
            len' ≤ Z.of_nat (length run)
            ∧ (len' = Z.of_nat (length run) → a ≤ a')))
  ∧ (∀ a len, maximal_run lo hi a len → a + len - 1 = hi →
       len ≤ Z.of_nat (length run))
  ∧ (∀ max_gap current_gap x, isprime x = true →
       fst (gap_step (max_gap, current_gap) x)
       = if (length max_gap <? length current_gap)%nat
         then current_gap else max_gap)
  ∧ run = gap_final (foldl gap_step ([], []) (seqZ lo (hi + 1 - lo))).
Proof.
  cbv zeta.
  pose proof (gap_scan_interval ((n - 1) ^ 2) (n ^ 2)) as Hspec.
  cbv zeta in Hspec. fold (find_max_composite_gap n) in Hspec.
  split_and!; [done| | |done].
  - intros a len Hrun _.
    destruct Hspec as [[_ Hnone]|(a0 & _ & _ & Hmax)].
    + by destruct (Hnone _ _ Hrun).
    + by apply Hmax in Hrun as [? _].
  - intros mg cg x Hx. unfold gap_step. by rewrite Hx.
Qed.

(** C6. When [2n - 1] is not prime (as for [n = 20], where it is [39]),
    [verify_interval] returns [None]; the batch driver leaves its state as it
    is, so no record of its results is for [n], and its total counts the
    [n] with [2n - 1] prime only. *)
Theorem C6_nonprime_skipped `{Sympy} (n : Z) :
  ¬ Z.prime (2 * n - 1) →
  verify_interval n = None
  ∧ (∀ b, batch_step b n = b)
  ∧ (∀ limit r, r ∈ results (run_batch limit) → rec_n r ≠ n)
  ∧ (∀ limit, total (run_batch limit)
       = Z.of_nat (length (filter (λ m, isprime (2 * m - 1) = true)
                             (seqZ 2 (limit + 1 - 2))))).
Proof.
  intros Hnp. pose proof (verify_interval_None n Hnp) as Hnone.
  split_and!; [done| | |].
  - intros b. unfold batch_step. by rewrite Hnone.
  - intros limit r Hr Hrn. unfold run_batch in Hr.
    apply batch_foldl_spec in Hr as [Hr|(m & _ & Hm)].
    + by apply elem_of_nil in Hr.
    + apply verify_interval_Some in Hm as [Hp Hm]. congruence.
  - intros limit. unfold run_batch.
    by destruct (batch_foldl_spec (seqZ 2 (limit + 1 - 2))
                   {| results := []; total := 0; holds := 0 |}) as [-> _].
Qed.

Lemma C6_nonprime_skipped_witness :
  ¬ Z.prime (2 * 20 - 1)
  ∧ @verify_interval reference_sympy 20 = None
  ∧ (∀ b, @batch_step reference_sympy b 20 = b)
  ∧ (∀ limit r, r ∈ results (@run_batch reference_sympy limit) → rec_n r ≠ 20)
  ∧ (∀ limit, total (@run_batch reference_sympy limit)
       = Z.of_nat (length (filter (λ m, trial_isprime (2 * m - 1) = true)
                             (seqZ 2 (limit + 1 - 2))))).
Proof.
  assert (Hnp : ¬ Z.prime (2 * 20 - 1)).
  { rewrite <- trial_isprime_spec. vm_compute. discriminate. }
  split; [exact Hnp|].
  exact (@C6_nonprime_skipped reference_sympy 20 Hnp).
Defined.

(** C7. For [n = 2] (so [p = 3] and the interior is [2], [3])
    [verify_interval] returns [N_plus = 0], [N_minus = 1], [N_zero = 1] and
    [gap = 1], which are the predicted [(p - 3) / 2 = 0] and
    [(p - 1) / 2 = 1], so [theorem_holds] is true. *)
Theorem C7_interval_2 `{Sympy} :
  verify_interval 2 = Some {|
    rec_n := 2; rec_p := 3; missing_residue := 1;
    N_plus := 0; N_minus := 1; N_zero := 1;
    expected_plus := 0; expected_minus := 1;
    gap := 1; theorem_holds := true |}
  ∧ seqZ ((2 - 1) ^ 2 + 1) (2 ^ 2 - ((2 - 1) ^ 2 + 1)) = [2; 3]
  ∧ (3 - 3) `div` 2 = 0 ∧ (3 - 1) `div` 2 = 1.
Proof.
  split; [|done].
  rewrite (verify_interval_prime 2); [done|lia|exact Z.prime_3].
Qed.

(** C8. [verify_interval] and [find_max_composite_gap] are functions of [n]
    alone: whatever implementation of the arithmetic service answers the
    calls, and in whatever state the batch driver is, the results for the
    same [n] are equal. *)
Theorem C8_deterministic (S1 S2 : Sympy) (n : Z) (b1 b2 : Batch) :
  @verify_interval S1 n = @verify_interval S2 n
  ∧ @find_max_composite_gap S1 n = @find_max_composite_gap S2 n
  ∧ (∀ r, @verify_interval S1 n = Some r →
       last (results (@batch_step S1 b1 n)) = Some r
       ∧ last (results (@batch_step S2 b2 n)) = Some r).
Proof.
  split_and!.
  - apply verify_interval_agree.
  - unfold find_max_composite_gap. apply gap_scan_agree.
  - intros r Hr. unfold batch_step.
    rewrite <- (verify_interval_agree S1 S2), Hr. simpl.
    by rewrite !last_snoc.
Qed.

(** C9. [compute_wronskian] is total on lists of positive integers: it
    raises nothing, the division is reached only under the guard
    [log_radical > 0] and so never divides by zero, and the empty list gives
    the [None] triple.  The guarded division of [dual_weapon] is total in
    the same way. *)
Theorem C9_compute_wronskian_total `{Sympy} (composites : list Z) :
  Forall (λ c, 0 < c) composites →
  (∃ v, compute_wronskian composites = Ok v)
  ∧ compute_wronskian composites ≠ Raise ZeroDivisionError
  ∧ (composites = [] → compute_wronskian composites = Ok (None, None, None))
  ∧ (∀ log_volume log_radical q,
       compute_wronskian composites
       = Ok (Some log_volume, Some log_radical, Some q) →
       if log_positive log_radical
       then q = Quot log_volume log_radical ∧ arg log_radical ≠ 1
       else q = Infinity)
  ∧ (∃ w, weapon_B_volume composites = Ok w).
Proof.
  intros Hpos.
  assert (Hall : Forall (λ c, 1 ≤ c) composites).
  { eapply Forall_impl; [exact Hpos|]. simpl. lia. }
  assert (Hval : composites ≠ [] → compute_wronskian composites = _)
    by (intros Hne; by apply compute_wronskian_value).
  cbv zeta in Hval.
  destruct (decide (composites = [])) as [->|Hne].
  { split_and!; [by eexists|done|done|done|by eexists]. }
  rewrite (Hval Hne). split_and!; [by eexists|done|done| |].
  - intros lv lr q [= <- <- <-]. unfold log_positive. simpl.
    destruct (Z.ltb_spec 1 (product (elements (collect_primes ∅ composites))));
      [split; [done|lia]|done].
  - rewrite weapon_B_volume_value by done. by eexists.
Qed.

Lemma C9_compute_wronskian_total_witness :
  Forall (λ c, 0 < c) [14; 15; 16]
  ∧ @compute_wronskian reference_sympy [14; 15; 16]
    = Ok (Some (Ln 3360), Some (Ln 210), Some (Quot (Ln 3360) (Ln 210)))
  ∧ (∃ v, @compute_wronskian reference_sympy [14; 15; 16] = Ok v).
Proof.
  assert (Hpos : Forall (λ c, 0 < c) [14; 15; 16])
    by (repeat constructor; lia).
  split; [exact Hpos|]. split; [vm_compute; reflexivity|].
  exact (proj1 (@C9_compute_wronskian_total reference_sympy [14; 15; 16] Hpos)).
Defined.

(** C10. For every non-empty list of integers greater than [1],
    [compute_radical] applied to the product of the list (dual_weapon) is the
    product of the primes that [compute_wronskian] collects member by member
    (wronskian_scanner): the two scripts compute the same log-radical. *)
Theorem C10_radicals_agree `{Sympy} (l : list Z) :
  l ≠ [] → Forall (λ c, 1 < c) l →
  compute_radical (total_product l)
  = product (elements (collect_primes ∅ l))
  ∧ (∃ log_volume q,
       compute_wronskian l
       = Ok (Some log_volume,
             Some (Ln (compute_radical (total_product l))), Some q))
  ∧ (∃ q, weapon_B_volume l
       = Ok (Some (total_product l, compute_radical (total_product l), q))).
Proof.
  intros Hne Hgt.
  assert (Hall : Forall (λ c, 1 ≤ c) l).
  { eapply Forall_impl; [exact Hgt|]. simpl. lia. }
  assert (Htp : total_product l = product l).
  { unfold total_product. by rewrite foldl_mul_product, Z.mul_1_l. }
  assert (Hrad : compute_radical (total_product l)
                 = product (elements (collect_primes ∅ l))).
  { rewrite Htp. by apply compute_radical_product. }
  split_and!; [done| |].
  - rewrite compute_wronskian_value, Hrad by done. by eexists _, _.
  - rewrite weapon_B_volume_value by done. by eexists.
Qed.

Lemma C10_radicals_agree_witness :
  [8; 9] ≠ @nil Z
  ∧ Forall (λ c, 1 < c) [8; 9]
  ∧ @compute_radical reference_sympy (total_product [8; 9]) = 6
  ∧ product (elements (@collect_primes reference_sympy ∅ [8; 9])) = 6
  ∧ @compute_radical reference_sympy (total_product [8; 9])
    = product (elements (@collect_primes reference_sympy ∅ [8; 9])).
Proof.
  assert (Hgt : Forall (λ c, 1 < c) [8; 9]) by (repeat constructor; lia).
  split; [done|]. split; [exact Hgt|].
  split; [vm_compute; reflexivity|]. split; [vm_compute; reflexivity|].
  exact (proj1 (@C10_radicals_agree reference_sympy [8; 9]
                  ltac:(done) Hgt)).
Defined.

(** * Further properties of the scripts *)

(** ** The batch drivers *)

Lemma omap_cons {A B : Type} (f : A → option B) (x : A) (xs : list A) :
  omap f (x :: xs)
  = match f x with Some y => y :: omap f xs | None => omap f xs end.
Proof. reflexivity. Qed.

Section BatchResults.
Context `{Sympy}.

(** A record is returned at a prime modulus only, and then it is the
    predicted one. *)
Lemma verify_interval_Some_record (n : Z) (r : SpinRecord) :
  verify_interval n = Some r →
  2 ≤ n ∧ Z.prime (2 * n - 1)
  ∧ r = {| rec_n := n; rec_p := 2 * n - 1;
           missing_residue := (n * n) mod (2 * n - 1);
           N_plus := n - 2; N_minus := n - 1; N_zero := 1;
           expected_plus := n - 2; expected_minus := n - 1;
           gap := 1; theorem_holds := true |}.
Proof.
  intros Hr. destruct (verify_interval_Some n r Hr) as [Hp _].
  pose proof (Z.prime_ge_2 _ Hp).
  assert (Hn : 2 ≤ n) by lia.
  rewrite verify_interval_prime in Hr by done.
  injection Hr as <-. done.
Qed.

(** The loop of [main] as a map over the qualifying [n]. *)
Lemma batch_foldl_results (xs : list Z) (b : Batch) :
  let b' := foldl batch_step b xs in
  results b' = results b ++ omap verify_interval xs
  ∧ total b' = total b + Z.of_nat (length (omap verify_interval xs))
  ∧ holds b' = holds b + Z.of_nat (length (omap verify_interval xs)).
Proof.
  revert b. induction xs as [|x xs IH]; intros b.
  { simpl. rewrite app_nil_r. split_and!; lia || done. }
  cbv zeta. simpl foldl.
  destruct (IH (batch_step b x)) as (Hres & Htot & Hholds).
  rewrite Hres, Htot, Hholds. clear IH Hres Htot Hholds.
  rewrite omap_cons. unfold batch_step.
  destruct (verify_interval x) as [r|] eqn:Hx; [|done].
  apply verify_interval_Some_record in Hx as (_ & _ & ->).
  cbn [results total holds theorem_holds].
  rewrite <- app_assoc, length_cons, Nat2Z.inj_succ.
  split_and!; [done|lia|lia].
Qed.

Lemma run_batch_results (limit : Z) :
  results (run_batch limit) = omap verify_interval (seqZ 2 (limit + 1 - 2))
  ∧ total (run_batch limit) = Z.of_nat (length (results (run_batch limit)))
  ∧ holds (run_batch limit) = total (run_batch limit).
Proof.
  unfold run_batch.
  destruct (batch_foldl_results (seqZ 2 (limit + 1 - 2))
              {| results := []; total := 0; holds := 0 |})
    as (Hres & Htot & Hholds).
  simpl in Hres, Htot, Hholds. rewrite Hres, Htot, Hholds. done.
Qed.

Lemma run_batch_total_pos (limit : Z) :
  2 ≤ limit → 1 ≤ total (run_batch limit).
Proof.
  intros Hl. destruct (run_batch_results limit) as (Hres & -> & _).
  rewrite Hres. rewrite seqZ_cons by lia.
  rewrite omap_cons.
  rewrite (verify_interval_prime 2) by (lia || exact Z.prime_3).
  rewrite length_cons. lia.
Qed.

Lemma run_batch_total_zero (limit : Z) :
  limit < 2 → total (run_batch limit) = 0.
Proof.
  intros Hl. destruct (run_batch_results limit) as (Hres & -> & _).
  rewrite Hres. unfold seqZ.
  by replace (Z.to_nat (limit + 1 - 2)) with 0%nat by lia.
Qed.

(** The record of every qualifying [n], in the order of the scan. *)
Lemma elem_of_omap_verify (xs : list Z) (r : SpinRecord) :
  r ∈ omap verify_interval xs ↔ rec_n r ∈ xs ∧ verify_interval (rec_n r) = Some r.
Proof.
  rewrite list_elem_of_omap. split.
  - intros (x & Hx & Hr). pose proof (verify_interval_Some _ _ Hr) as [_ Hn].
    by subst x.
  - intros [Hx Hr]. by exists (rec_n r).
Qed.

Lemma omap_verify_sorted (xs : list Z) :
  StronglySorted Z.lt xs →
  StronglySorted Z.lt (rec_n <$> omap verify_interval xs).
Proof.
  induction 1 as [|x xs Hs IH Hall]; simpl; [constructor|].
  destruct (verify_interval x) as [r|] eqn:Hx; [|done].
  simpl. constructor; [done|].
  apply verify_interval_Some in Hx as [_ ->].
  apply Forall_forall. intros m Hm.
  apply list_elem_of_fmap in Hm as (r' & -> & Hr').
  apply elem_of_omap_verify in Hr' as [Hr' _].
  rewrite Forall_forall in Hall. by apply Hall.
Qed.
End BatchResults.

Lemma seqZ_sorted (m len : Z) : StronglySorted Z.lt (seqZ m len).
Proof.
  destruct (decide (0 ≤ len)) as [Hlen|Hneg].
  2:{ unfold seqZ. replace (Z.to_nat len) with 0%nat by lia. constructor. }
  rewrite <- (Z2Nat.id len) by lia. generalize (Z.to_nat len). clear.
  intros k. revert m. induction k as [|k IH]; intros m.
  - constructor.
  - rewrite seqZ_cons by lia.
    replace (Z.pred (Z.of_nat (S k))) with (Z.of_nat k) by lia.
    constructor; [apply IH|].
    apply Forall_forall. intros x Hx. apply elem_of_seqZ in Hx. lia.
Qed.

Lemma sorted_lt_NoDup (l : list Z) : StronglySorted Z.lt l → NoDup l.
Proof.
  induction 1 as [|x l _ IH Hall]; constructor; [|done].
  intros Hin. rewrite Forall_forall in Hall. specialize (Hall x Hin). lia.
Qed.

Lemma run_batch_NoDup `{Sympy} (limit : Z) : NoDup (results (run_batch limit)).
Proof.
  apply (NoDup_fmap_1 rec_n), sorted_lt_NoDup.
  destruct (run_batch_results limit) as (-> & _ & _).
  apply omap_verify_sorted, seqZ_sorted.
Qed.

(** ** The spin scan of topology_scanner and dual_weapon *)

Lemma quadratic_residue_mod (p a : Z) :
  quadratic_residue p (a mod p) ↔ quadratic_residue p a.
Proof. unfold quadratic_residue. by rewrite Zmod_mod. Qed.

Lemma legendre_symbol_unique (a p s s' : Z) :
  legendre_symbol a p s → legendre_symbol a p s' → s = s'.
Proof.
  unfold legendre_symbol.
  intros [[? ->]|[(?&?&->)|(?&?&->)]] [[? ->]|[(?&?&->)|(?&?&->)]];
    done.
Qed.

Section TopologySpins.
Context `{Sympy}.

(** The symbol depends on the residue of its first argument only, so the
    scripts that pass [x] and the one that passes [x % p] agree. *)
Lemma jacobi_symbol_mod (x p : Z) :
  Z.prime p → 2 < p → jacobi_symbol (x mod p) p = jacobi_symbol x p.
Proof.
  intros Hp Hp2.
  apply (legendre_symbol_unique x p); [|by apply jacobi_symbol_spec].
  pose proof (jacobi_symbol_spec (x mod p) p Hp Hp2) as Hs.
  unfold legendre_symbol in *.
  rewrite Zmod_mod, quadratic_residue_mod in Hs. done.
Qed.

Lemma topology_spin_foldl (p : Z) (xs : list Z) (t : SpinTally) :
  Z.prime p → 2 < p →
  foldl (topology_spin_step p) (n_plus t, n_minus t) xs
  = (n_plus (foldl (spin_step p) t xs), n_minus (foldl (spin_step p) t xs)).
Proof.
  intros Hp Hp2. revert t. induction xs as [|x xs IH]; intros t; [done|].
  simpl foldl. rewrite <- IH. f_equal.
  unfold topology_spin_step, spin_step.
  rewrite (jacobi_symbol_mod x p Hp Hp2).
  destruct (x mod p =? 0); [done|].
  destruct (jacobi_symbol x p =? 1); [done|].
  by destruct (jacobi_symbol x p =? -1).
Qed.

(** The tally of [verify_interval] at a prime modulus. *)
Lemma spin_tally_prime (n : Z) :
  2 ≤ n → Z.prime (2 * n - 1) →
  let t := foldl (spin_step (2 * n - 1))
             {| n_plus := 0; n_minus := 0; n_zero := 0 |}
             (seqZ ((n - 1) ^ 2 + 1) (n ^ 2 - ((n - 1) ^ 2 + 1))) in
  n_plus t = n - 2 ∧ n_minus t = n - 1 ∧ n_zero t = 1.
Proof.
  intros Hn Hp. cbv zeta.
  pose proof (verify_interval_prime n Hn Hp) as Hv.
  unfold verify_interval in Hv.
  assert (Hip : isprime (2 * n - 1) = true) by by apply isprime_spec.
  rewrite Hip in Hv. simpl negb in Hv. cbv iota zeta in Hv.
  injection Hv as Hplus Hminus Hzero _. done.
Qed.

Lemma topology_step_prime (st : Z * Z) (n : Z) :
  Z.prime (2 * n - 1) → topology_step st n = (st.1 + 1, st.2 + 1).
Proof.
  intros Hp. destruct st as [ppc lhc]. unfold topology_step.
  assert (Hip : isprime (2 * n - 1) = true) by by apply isprime_spec.
  rewrite Hip. pose proof (Z.prime_ge_2 _ Hp).
  destruct (spin_tally_prime n ltac:(lia) Hp) as (Hplus & Hminus & _).
  rewrite (topology_spin_foldl (2 * n - 1) _
             {| n_plus := 0; n_minus := 0; n_zero := 0 |}) by (done || lia).
  rewrite Hplus, Hminus. simpl.
  replace (n - 1 - (n - 2)) with 1 by lia. done.
Qed.

Lemma topology_step_not_prime (st : Z * Z) (n : Z) :
  ¬ Z.prime (2 * n - 1) → topology_step st n = st.
Proof.
  intros Hp. destruct st as [ppc lhc]. unfold topology_step.
  apply isprime_false in Hp. by rewrite Hp.
Qed.

(** Both counters of [run_weapon_a_topology] count the qualifying [n]. *)
Lemma topology_foldl (xs : list Z) (st : Z * Z) :
  foldl topology_step st xs
  = (st.1 + Z.of_nat (length (omap verify_interval xs)),
     st.2 + Z.of_nat (length (omap verify_interval xs))).
Proof.
  revert st. induction xs as [|x xs IH]; intros st.
  { simpl. destruct st. simpl. f_equal; lia. }
  simpl foldl. rewrite IH, omap_cons.
  destruct (verify_interval x) as [r|] eqn:Hx.
  - apply verify_interval_Some in Hx as [Hp _].
    rewrite topology_step_prime by done. simpl fst. simpl snd.
    rewrite length_cons, Nat2Z.inj_succ. f_equal; lia.
  - rewrite topology_step_not_prime; [done|].
    intros Hp. pose proof (Z.prime_ge_2 _ Hp).
    by rewrite verify_interval_prime in Hx by (done || lia).
Qed.
End TopologySpins.

(** ** The residue sieve of dual_weapon *)

(** The multiple of [2n - 1] inside the interval. *)
Lemma interior_multiple (n : Z) :
  2 ≤ n → (n - 1) ^ 2 < n `div` 2 * (2 * n - 1) < n ^ 2.
Proof.
  intros Hn. pose proof (Z.div_mod n 2 ltac:(lia)) as Hdm.
  pose proof (Z.mod_pos_bound n 2 ltac:(lia)) as Hr.
  assert (Hk : 1 ≤ n `div` 2) by lia.
  assert (n mod 2 = 0 ∨ n mod 2 = 1) as [Hz|Ho] by lia.
  - rewrite Hz in Hdm. nia.
  - rewrite Ho in Hdm. nia.
Qed.

Lemma find_multiple_Some (p m : Z) (xs : list Z) :
  m ∈ xs → m mod p = 0 → (∀ x, x ∈ xs → x mod p = 0 → x = m) →
  find_multiple p xs = Some m.
Proof.
  induction xs as [|x xs IH]; intros Hm Hz Huniq.
  { by apply elem_of_nil in Hm. }
  simpl. destruct (Z.eqb_spec (x mod p) 0) as [Hx|Hx].
  - f_equal. apply Huniq; [left|done].
  - apply IH; [|done|].
    + apply elem_of_cons in Hm as [->|Hm]; done.
    + intros y Hy. apply Huniq. by right.
Qed.

Lemma spins_foldl {A B : Type} `{EqDecision A} (f : A → B) (mo : option A)
    (xs : list A) (acc : list B) :
  foldl (λ spins x, if decide (Some x = mo) then spins else spins ++ [f x])
    acc xs
  = acc ++ (f <$> filter (λ x, Some x ≠ mo) xs).
Proof.
  revert acc. induction xs as [|x xs IH]; intros acc; simpl.
  { by rewrite app_nil_r. }
  rewrite IH, filter_cons. destruct (decide (Some x = mo)) as [He|Hne].
  - by rewrite decide_False by (by intros ?).
  - rewrite decide_True by done. by rewrite fmap_cons, <- app_assoc.
Qed.

Section ResidueSieve.
Context `{Sympy}.

(** The anchor found by the search loop: the only multiple of [p] among the
    interior points. *)
Lemma sieve_multiple (n : Z) :
  2 ≤ n →
  let m := n `div` 2 * (2 * n - 1) in
  find_multiple (2 * n - 1)
    (seqZ ((n - 1) ^ 2 + 1) (n ^ 2 - ((n - 1) ^ 2 + 1))) = Some m
  ∧ ∀ x, x ∈ seqZ ((n - 1) ^ 2 + 1) (n ^ 2 - ((n - 1) ^ 2 + 1)) →
      x mod (2 * n - 1) = 0 ↔ x = m.
Proof.
  intros Hn. cbv zeta. pose proof (interior_multiple n Hn) as Hm.
  assert (Hz : (n `div` 2 * (2 * n - 1)) mod (2 * n - 1) = 0).
  { apply Z.mod_mul. lia. }
  assert (Huniq : ∀ x,
            x ∈ seqZ ((n - 1) ^ 2 + 1) (n ^ 2 - ((n - 1) ^ 2 + 1)) →
            x mod (2 * n - 1) = 0 → x = n `div` 2 * (2 * n - 1)).
  { intros x Hx Hxz. rewrite elem_of_seqZ in Hx.
    apply (window_mod_inj ((n - 1) ^ 2 + 1) (2 * n - 1)); [lia|lia|lia|].
    by rewrite Hxz, Hz. }
  split.
  - apply find_multiple_Some; [|done|done].
    rewrite elem_of_seqZ. lia.
  - intros x Hx. split; [by apply Huniq|by intros ->].
Qed.

Lemma sieve_counts (n v : Z) :
  2 ≤ n → Z.prime (2 * n - 1) →
  count_of v
    (foldl (λ spins x,
              if decide (Some x = Some (n `div` 2 * (2 * n - 1))) then spins
              else spins ++ [jacobi_symbol x (2 * n - 1)])
       [] (seqZ ((n - 1) ^ 2 + 1) (n ^ 2 - ((n - 1) ^ 2 + 1))))
  = length (filter (λ x, x mod (2 * n - 1) ≠ 0
                         ∧ jacobi_symbol (x mod (2 * n - 1)) (2 * n - 1) = v)
              (seqZ ((n - 1) ^ 2 + 1) (2 * n - 1 - 1))).
Proof.
  intros Hn Hp. unfold count_of.
  rewrite spins_foldl, app_nil_l, filter_length_map, list_filter_filter.
  replace (n ^ 2 - ((n - 1) ^ 2 + 1)) with (2 * n - 1 - 1) by lia.
  apply filter_length_ext. intros x Hx.
  replace (2 * n - 1 - 1) with (n ^ 2 - ((n - 1) ^ 2 + 1)) in Hx by lia.
  destruct (sieve_multiple n Hn) as [_ Hm]. specialize (Hm x Hx).
  rewrite jacobi_symbol_mod by (done || lia).
  split.
  - intros [Hj Hne]. split; [|done]. intros Hz. apply Hne. f_equal.
    by apply Hm.
  - intros [Hnz Hj]. split; [done|]. intros [= Heq]. by apply Hnz, Hm.
Qed.
End ResidueSieve.

(** ** More on the run finder *)

Lemma seqZ_head_last (a len : Z) :
  0 < len →
  head (seqZ a len) = Some a ∧ last (seqZ a len) = Some (a + len - 1).
Proof.
  intros Hlen. split.
  - by rewrite seqZ_cons by lia.
  - replace len with ((len - 1) + 1) by lia.
    rewrite seqZ_app by lia. rewrite last_app.
    replace (seqZ (a + (len - 1)) 1) with [a + (len - 1)] by done.
    simpl. f_equal. lia.
Qed.

(** A non-prime right endpoint ends a maximal run. *)
Lemma maximal_run_exists_right (lo hi : Z) :
  lo ≤ hi → ¬ Z.prime hi → ∃ a, maximal_run lo hi a (hi - a + 1).
Proof.
  intros Hle Hnp.
  assert (Hgrow : ∀ (j : nat) (a : Z),
            a ≤ hi → prime_free a (hi - a + 1) → lo + Z.of_nat j = a →
            ∃ a', maximal_run lo hi a' (hi - a' + 1)).
  { induction j as [|j IH]; intros a Ha Hpf Hlo.
    - exists a. unfold maximal_run.
      split_and!; [lia|lia|lia|done|left; lia|left; lia].
    - destruct (prime_or_not (a - 1)) as [Hp|Hn].
      + exists a. unfold maximal_run.
        split_and!; [lia|lia|lia|done|by right|left; lia].
      + apply (IH (a - 1)); [lia| |lia].
        intros y Hy. destruct (decide (y = a - 1)) as [->|Hne]; [done|].
        apply Hpf. lia. }
  apply (Hgrow (Z.to_nat (hi - lo)) hi); [lia| |lia].
  intros y Hy. by replace y with hi by lia.
Qed.

Lemma pred_square_not_prime (n : Z) : 3 ≤ n → ¬ Z.prime (n ^ 2 - 1).
Proof.
  intros Hn [_ Hdiv]. apply (Hdiv (n - 1)); [nia|].
  exists (n + 1). lia.
Qed.

Section RunShape.
Context `{Sympy}.

(** The run found for [n >= 1]; [find_max_composite_gap_run] with the
    interval [[0, 1]] included. *)
Lemma find_max_composite_gap_shape (n : Z) :
  1 ≤ n →
  ∃ a len, find_max_composite_gap n = seqZ a len
    ∧ Z.of_nat (length (find_max_composite_gap n)) = len
    ∧ maximal_run ((n - 1) ^ 2) (n ^ 2) a len
    ∧ ∀ a' len', maximal_run ((n - 1) ^ 2) (n ^ 2) a' len' → len' ≤ len.
Proof.
  intros Hn. unfold find_max_composite_gap.
  destruct (gap_scan_interval ((n - 1) ^ 2) (n ^ 2))
    as [[_ Hnone]|(a & Hrun & Hmax & Hbest)].
  - exfalso.
    destruct (maximal_run_exists ((n - 1) ^ 2) (n ^ 2)) as [len Hlen].
    + nia.
    + rewrite Z.pow_2_r. apply Z.not_prime_square.
    + by apply (Hnone _ _ Hlen).
  - eexists a, _. split_and!; [exact Hrun|done|done|].
    intros a' len' Hrun'. by apply Hbest in Hrun' as [? _].
Qed.

Lemma find_max_composite_gap_empty (n : Z) :
  n ≤ 0 → find_max_composite_gap n = [].
Proof.
  intros Hn. unfold find_max_composite_gap, seqZ.
  by replace (Z.to_nat (n ^ 2 + 1 - (n - 1) ^ 2)) with 0%nat by lia.
Qed.

Lemma find_max_composite_gap_1 : find_max_composite_gap 1 = [0; 1].
Proof.
  unfold find_max_composite_gap, gap_scan.
  change (seqZ ((1 - 1) ^ 2) (1 ^ 2 + 1 - (1 - 1) ^ 2)) with [0; 1].
  assert (H0 : isprime 0 = false) by apply isprime_false, Z.not_prime_0.
  assert (H1 : isprime 1 = false) by apply isprime_false, Z.not_prime_1.
  simpl. unfold gap_step. rewrite H0. simpl. rewrite H1. done.
Qed.

Lemma find_max_composite_gap_ge_1 (n : Z) :
  2 ≤ n → Forall (λ c, 1 ≤ c) (find_max_composite_gap n).
Proof.
  intros Hn. apply Forall_forall. intros x Hx.
  apply find_max_composite_gap_members in Hx as [Hx _]; [nia|done].
Qed.

End RunShape.

(** ** The loop of wronskian_scanner's [main] *)

Section WronskianRows.
Context `{Sympy}.

Lemma product_unit_run (l : list Z) :
  Forall (λ c, 1 ≤ c) l → product l = 1 ↔ Forall (λ c, c = 1) l.
Proof.
  induction 1 as [|c l Hc Hall IH]; simpl.
  - split; [constructor|done].
  - assert (0 < product l).
    { apply product_pos. eapply Forall_impl; [exact Hall|]. simpl. lia. }
    rewrite Forall_cons, <- IH. split; [nia|intros [-> ->]; done].
Qed.

(** What one iteration produces for [n >= 2]. *)
Lemma wronskian_iteration_row (n : Z) :
  2 ≤ n →
  let gap := find_max_composite_gap n in
  let V := product gap in
  let R := product (elements (collect_primes ∅ gap)) in
  wronskian_iteration n = inr {|
    row_n := n;
    gap_length := length gap;
    gap_start := head gap;
    gap_end := last gap;
    row_log_volume := if V =? 1 then None else Some (Round (Ln V) 2);
    row_log_radical := if R =? 1 then None else Some (Round (Ln R) 2);
    row_q_W := if 1 <? R then Some (Round (Quot (Ln V) (Ln R)) 4)
               else Some (Round Infinity 4) |}.
Proof.
  intros Hn. cbv zeta. unfold wronskian_iteration.
  destruct (find_max_composite_gap_run n Hn) as [Hne _].
  pose proof (find_max_composite_gap_ge_1 n Hn) as Hall.
  rewrite compute_wronskian_value by done.
  assert (HRV : product (elements (collect_primes ∅ (find_max_composite_gap n)))
                ≤ product (find_max_composite_gap n)).
  { apply Z.divide_pos_le; [|by apply collected_primes_divide].
    apply product_pos. eapply Forall_impl; [exact Hall|]. simpl. lia. }
  revert HRV.
  generalize (product (elements (collect_primes ∅ (find_max_composite_gap n)))).
  generalize (product (find_max_composite_gap n)). intros V R HRV.
  destruct (Z.ltb_spec 1 R) as [HR|HR]; simpl; unfold log_truthy; simpl;
    destruct (Z.eqb_spec V 1), (Z.eqb_spec R 1); simpl; done || lia.
Qed.
End WronskianRows.

(** ** Errors of the radical volume calculators *)

Lemma sum_logs_error (acc : LogNum) (l : list Z) :
  Exists (λ c, c ≤ 0) l → sum_logs acc l = Raise ValueError.
Proof.
  intros Hex. revert acc. induction l as [|c l IH]; intros acc.
  { by apply Exists_nil in Hex. }
  simpl. unfold math_log. destruct (Z.leb_spec c 0) as [Hc|Hc]; [done|].
  simpl. apply IH. apply Exists_cons in Hex as [?|?]; [lia|done].
Qed.

Lemma positive_or_not (l : list Z) :
  Forall (λ c, 0 < c) l ∨ Exists (λ c, c ≤ 0) l.
Proof.
  destruct (decide (Forall (λ c, 0 < c) l)) as [?|Hn]; [by left|right].
  apply not_Forall_Exists in Hn; [|apply _].
  eapply Exists_impl; [exact Hn|]. simpl. lia.
Qed.

Section CalculatorErrors.
Context `{Sympy}.

Lemma compute_wronskian_error (l : list Z) :
  Exists (λ c, c ≤ 0) l → compute_wronskian l = Raise ValueError.
Proof.
  intros Hex. unfold compute_wronskian.
  destruct l as [|c l]; [by apply Exists_nil in Hex|].
  by rewrite (sum_logs_error _ _ Hex).
Qed.

(** [global_factors.add(p)] for every key is the [update] of
    [compute_wronskian]. *)
Lemma add_keys (s : gset Z) (keys : list Z) :
  foldl (λ s p, s ∪ {[p]}) s keys = s ∪ list_to_set keys.
Proof.
  revert s. induction keys as [|k keys IH]; intros s; simpl.
  - by rewrite union_empty_r_L.
  - by rewrite IH, (assoc_L (∪)).
Qed.

Lemma topology_accumulate_ok (xs : list Z) (a : LogNum) (s : gset Z) :
  Forall (λ c, 0 < c) xs →
  topology_accumulate (a, s) xs
  = Ok (Ln (arg a * product xs), collect_primes s xs).
Proof.
  intros Hall. revert a s.
  induction Hall as [|x xs Hx _ IH]; intros a s; simpl.
  - destruct a as [v]. simpl. by rewrite Z.mul_1_r.
  - unfold math_log. destruct (Z.leb_spec x 0) as [?|_]; [lia|]. simpl.
    rewrite IH, add_keys. simpl. do 3 f_equal. lia.
Qed.

Lemma topology_accumulate_error (xs : list Z) (st : LogNum * gset Z) :
  Exists (λ c, c ≤ 0) xs → topology_accumulate st xs = Raise ValueError.
Proof.
  intros Hex. revert st. induction xs as [|x xs IH]; intros [a s].
  { by apply Exists_nil in Hex. }
  simpl. unfold math_log. destruct (Z.leb_spec x 0) as [Hc|Hc]; [done|].
  simpl. apply IH. apply Exists_cons in Hex as [?|?]; [lia|done].
Qed.

(** The row of topology_scanner for [n >= 2]. *)
Lemma topology_row_value (n : Z) :
  2 ≤ n →
  let gap := find_max_composite_gap n in
  let V := product gap in
  let R := product (elements (collect_primes ∅ gap)) in
  topology_row n
  = Ok (Some (n, length gap, Ln V, Ln R,
              if 1 <? R then Quot (Ln V) (Ln R) else RatioOne)).
Proof.
  intros Hn. cbv zeta. unfold topology_row.
  fold (find_max_composite_gap n).
  destruct (find_max_composite_gap_run n Hn) as [Hne _].
  pose proof (find_max_composite_gap_ge_1 n Hn) as Hall.
  destruct (length (find_max_composite_gap n) =? 0)%nat eqn:Hlen.
  { apply Nat.eqb_eq in Hlen. by destruct (find_max_composite_gap n). }
  rewrite topology_accumulate_ok.
  2:{ eapply Forall_impl; [exact Hall|]. simpl. lia. }
  simpl mbind. unfold result_bind at 1. cbv beta iota.
  rewrite (sum_logs_ok (Ln 1) (elements _)) by by apply collected_primes_pos.
  simpl arg. rewrite !Z.mul_1_l.
  generalize (product (elements (collect_primes ∅ (find_max_composite_gap n)))).
  generalize (product (find_max_composite_gap n)). intros V R.
  unfold mbind, result_bind. cbv beta iota.
  unfold log_positive, log_div. simpl arg.
  destruct (Z.ltb_spec 1 R) as [Hgt|Hle]; [|done].
  destruct (Z.eqb_spec R 1); [lia|done].
Qed.

(** The result of dual_weapon's weapon B for [n >= 2]. *)
Lemma weapon_B_wronskian_volume_value (n : Z) :
  2 ≤ n →
  let gap := find_max_composite_gap n in
  let V := product gap in
  let R := product (elements (collect_primes ∅ gap)) in
  weapon_B_wronskian_volume n
  = Ok (Some (V, R, if 1 <? R then Quot (Ln V) (Ln R) else RatioOne)).
Proof.
  intros Hn. cbv zeta. unfold weapon_B_wronskian_volume.
  fold (find_max_composite_gap n).
  destruct (find_max_composite_gap_run n Hn) as [Hne _].
  pose proof (find_max_composite_gap_ge_1 n Hn) as Hall.
  rewrite weapon_B_volume_value by done.
  assert (Htp : total_product (find_max_composite_gap n)
                = product (find_max_composite_gap n)).
  { unfold total_product. by rewrite foldl_mul_product, Z.mul_1_l. }
  by rewrite Htp, compute_radical_product.
Qed.
End CalculatorErrors.

(** ** The radical *)

Lemma prime_divide_primes (q : Z) (qs : list Z) :
  Z.prime q → Forall Z.prime qs → (q | product qs) ↔ q ∈ qs.
Proof.
  intros Hq Hqs. rewrite prime_divide_product by done. split.
  - intros (c & Hc & Hd). rewrite Forall_forall in Hqs.
    apply Z.divide_prime_prime in Hd; [by subst c|done|by apply Hqs].
  - intros Hin. exists q. split; [done|apply Z.divide_refl].
Qed.

(** A product of distinct primes has no square factor. *)
Lemma distinct_primes_squarefree (q : Z) (qs : list Z) :
  Z.prime q → NoDup qs → Forall Z.prime qs → ¬ (q * q | product qs).
Proof.
  intros Hq Hnd Hqs [k Hk].
  assert (Hin : q ∈ qs).
  { apply prime_divide_primes; [done|done|]. exists (k * q). lia. }
  apply list_elem_of_split in Hin as (l1 & l2 & ->).
  apply NoDup_app in Hnd as (_ & Hdisj & Hnd2).
  apply NoDup_cons in Hnd2 as [Hq2 _].
  apply Forall_app in Hqs as [Hqs1 Hqs2].
  apply Forall_cons in Hqs2 as [_ Hqs2].
  assert (Hperm : product (l1 ++ q :: l2) = q * product (l1 ++ l2)).
  { rewrite (product_Permutation (l1 ++ q :: l2) (q :: l1 ++ l2)); [done|].
    by rewrite Permutation_middle. }
  rewrite Hperm in Hk. pose proof (Z.prime_ge_2 _ Hq).
  assert (Hd : (q | product (l1 ++ l2))).
  { exists k. nia. }
  apply prime_divide_primes in Hd; [|done|by apply Forall_app].
  apply elem_of_app in Hd as [Hd|Hd]; [|done].
  apply (Hdisj q Hd). left.
Qed.

Section RadicalFacts.
Context `{Sympy}.

Lemma factorint_keys_prime (n : Z) :
  1 ≤ n → Forall Z.prime (factorint_keys n).
Proof.
  intros Hn. apply Forall_forall. intros q Hq.
  by apply factorint_keys_spec in Hq as [? _].
Qed.

Lemma compute_radical_keys (n : Z) :
  1 ≤ n → compute_radical n = product (factorint_keys n).
Proof.
  intros Hn. unfold compute_radical.
  destruct (Z.leb_spec n 1) as [Hle|Hgt].
  - assert (n = 1) as -> by lia.
    assert (Hnil : factorint_keys 1 = []); [|by rewrite Hnil].
    apply elem_of_nil_inv. intros q Hq.
    apply factorint_keys_spec in Hq as [Hq Hd]; [|lia].
    apply Z.divide_1_r_nonneg in Hd; pose proof (Z.prime_ge_2 _ Hq); lia.
  - by rewrite foldl_mul_product, Z.mul_1_l.
Qed.

Lemma compute_radical_divide (n : Z) : 1 ≤ n → (compute_radical n | n).
Proof.
  intros Hn. rewrite compute_radical_keys by done.
  apply distinct_primes_divide; [by apply factorint_keys_NoDup|].
  apply Forall_forall. intros q Hq. by apply factorint_keys_spec in Hq.
Qed.

Lemma compute_radical_pos (n : Z) : 1 ≤ compute_radical n.
Proof.
  unfold compute_radical. destruct (Z.leb_spec n 1) as [Hle|Hgt]; [lia|].
  rewrite foldl_mul_product, Z.mul_1_l.
  assert (0 < product (factorint_keys n)); [|lia].
  apply product_pos. apply Forall_forall. intros q Hq.
  apply factorint_keys_spec in Hq as [Hq _]; [|lia].
  pose proof (Z.prime_ge_2 _ Hq). lia.
Qed.

Lemma prime_divide_radical (n q : Z) :
  1 ≤ n → Z.prime q → (q | compute_radical n) ↔ (q | n).
Proof.
  intros Hn Hq. rewrite compute_radical_keys by done.
  rewrite prime_divide_primes by (done || by apply factorint_keys_prime).
  rewrite factorint_keys_spec by done. tauto.
Qed.

(** Two numbers with the same prime divisors have the same radical. *)
Lemma compute_radical_same_primes (n m : Z) :
  1 ≤ n → 1 ≤ m → (∀ q, Z.prime q → (q | n) ↔ (q | m)) →
  compute_radical n = compute_radical m.
Proof.
  intros Hn Hm Hsame. rewrite !compute_radical_keys by done.
  apply product_Permutation, NoDup_Permutation;
    [by apply factorint_keys_NoDup..|].
  intros q. rewrite !factorint_keys_spec by done.
  split; intros [Hq Hd]; (split; [done|by apply Hsame]).
Qed.

End RadicalFacts.

Section SmallIntervals.
Context `{Sympy}.

Lemma find_max_composite_gap_2 : find_max_composite_gap 2 = [1].
Proof.
  unfold find_max_composite_gap, gap_scan.
  change (seqZ ((2 - 1) ^ 2) (2 ^ 2 + 1 - (2 - 1) ^ 2)) with [1; 2; 3; 4].
  assert (H1 : isprime 1 = false) by apply isprime_false, Z.not_prime_1.
  assert (H2 : isprime 2 = true) by apply isprime_spec, Z.prime_2.
  assert (H3 : isprime 3 = true) by apply isprime_spec, Z.prime_3.
  assert (H4 : isprime 4 = false).
  { apply isprime_false. apply (Z.not_prime_square 2). }
  simpl. unfold gap_step. rewrite H1. simpl. rewrite H2. simpl.
  rewrite H3. simpl. rewrite H4. simpl. done.
Qed.

(** The run of [n >= 2] has product [1] at [n = 2] only. *)
Lemma gap_volume_unit (n : Z) :
  2 ≤ n →
  (product (find_max_composite_gap n) = 1 ↔ n = 2)
  ∧ (product (elements (collect_primes ∅ (find_max_composite_gap n))) = 1
     ↔ n = 2).
Proof.
  intros Hn. pose proof (find_max_composite_gap_ge_1 n Hn) as Hall.
  rewrite product_unit_run, collected_primes_unit by done.
  cut (Forall (λ c, c = 1) (find_max_composite_gap n) ↔ n = 2); [tauto|].
  split.
  - intros Hones. destruct (decide (n = 2)) as [|Hne]; [done|].
    pose proof (find_max_composite_gap_composite n ltac:(lia)) as Hcomp.
    destruct (find_max_composite_gap_run n Hn) as [Hnil _].
    destruct (find_max_composite_gap n) as [|c l]; [done|].
    apply Forall_cons in Hones as [-> _].
    apply Forall_cons in Hcomp as [[? _] _]. lia.
  - intros ->. rewrite find_max_composite_gap_2. by repeat constructor.
Qed.
End SmallIntervals.

(** ** The display of [main] *)

Lemma display_NoDup {A : Type} (rs : list A) :
  NoDup rs →
  NoDup ((Some <$> take 5 rs) ++ [None] ++ (Some <$> last_k 3 rs))
  ↔ rs = [] ∨ (8 ≤ length rs)%nat.
Proof.
  intros Hnd. unfold last_k. split.
  - intros Hdisp.
    destruct (decide (rs = [])) as [|Hne]; [by left|right].
    destruct (decide (8 ≤ length rs)%nat) as [|Hlt]; [done|exfalso].
    apply NoDup_app in Hdisp as (_ & Hdisj & _).
    assert (Hi : (length rs - 3 < length rs)%nat).
    { destruct rs; [done|]. simpl. lia. }
    apply lookup_lt_is_Some_2 in Hi as [x Hx].
    apply (Hdisj (Some x)).
    + apply list_elem_of_fmap. exists x. split; [done|].
      apply list_elem_of_lookup. exists (length rs - 3)%nat.
      rewrite lookup_take_lt by lia. done.
    + right. apply list_elem_of_fmap. exists x. split; [done|].
      apply list_elem_of_lookup. exists 0%nat.
      rewrite lookup_drop. by rewrite Nat.add_0_r.
  - intros [->|Hlen]; [simpl; apply NoDup_singleton|].
    apply NoDup_app. split_and!.
    + apply NoDup_fmap_2; [apply _|]. eapply sublist_NoDup; [exact Hnd|apply sublist_take].
    + intros [x|] Hin Hin'.
      * apply list_elem_of_fmap in Hin as (y & [= <-] & Hy).
        apply elem_of_cons in Hin' as [?|Hin']; [done|].
        apply list_elem_of_fmap in Hin' as (z & [= <-] & Hz).
        apply list_elem_of_lookup in Hy as [i Hi].
        apply list_elem_of_lookup in Hz as [j Hj].
        pose proof (lookup_lt_Some _ _ _ Hi) as Hilt.
        rewrite length_take in Hilt.
        rewrite lookup_take_lt in Hi by lia.
        rewrite lookup_drop in Hj.
        pose proof (NoDup_lookup _ _ _ _ Hnd Hi Hj). lia.
      * apply list_elem_of_fmap in Hin as (y & ? & _). done.
    + apply NoDup_cons. split.
      * intros Hin. apply list_elem_of_fmap in Hin as (y & ? & _). done.
      * apply NoDup_fmap_2; [apply _|]. eapply sublist_NoDup; [exact Hnd|apply sublist_drop].
Qed.

(** ** Properties of the drivers and of the sibling scripts *)

(** X1. Whatever the limit, [main] verifies the theorem for every qualifying
    interval: [holds] equals [total], [total] is the number of records, and
    every record has [theorem_holds] set and [gap = 1]. *)
Theorem X1_all_intervals_hold `{Sympy} (limit : Z) :
  holds (run_batch limit) = total (run_batch limit)
  ∧ total (run_batch limit) = Z.of_nat (length (results (run_batch limit)))
  ∧ Forall (λ r, theorem_holds r = true ∧ gap r = 1
                 ∧ N_minus r - N_plus r = 1)
      (results (run_batch limit)).
Proof.
  destruct (run_batch_results limit) as (Hres & Htot & Hholds).
  split_and!; [done|done|].
  rewrite Hres. apply Forall_forall. intros r Hr.
  apply elem_of_omap_verify in Hr as [_ Hr].
  apply verify_interval_Some_record in Hr as (_ & _ & ->). simpl.
  split_and!; [done|done|lia].
Qed.

(** X2. The records of [main] are those of the [n] between [2] and the limit
    with [2n - 1] prime, one for each, in ascending order of [n]. *)
Theorem X2_results_ascending `{Sympy} (limit : Z) :
  (∀ n, (∃ r, r ∈ results (run_batch limit) ∧ rec_n r = n)
        ↔ 2 ≤ n ≤ limit ∧ Z.prime (2 * n - 1))
  ∧ StronglySorted Z.lt (rec_n <$> results (run_batch limit)).
Proof.
  destruct (run_batch_results limit) as (Hres & _ & _). rewrite Hres.
  split.
  - intros n. split.
    + intros (r & Hr & <-). apply elem_of_omap_verify in Hr as [Hin Hr].
      apply elem_of_seqZ in Hin.
      apply verify_interval_Some in Hr as [Hp _]. split; [lia|done].
    + intros [Hn Hp].
      pose proof (verify_interval_prime n ltac:(lia) Hp) as Hv.
      destruct (verify_interval n) as [r|] eqn:Hr; [|done].
      pose proof (verify_interval_Some n r Hr) as [_ Hrn].
      exists r. split; [|done].
      apply elem_of_omap_verify. rewrite Hrn. split; [|done].
      apply elem_of_seqZ. lia.
  - apply omap_verify_sorted, seqZ_sorted.
Qed.

(** X3. For a limit of at least [2] the summary of [main] is computed
    without error: at least one interval qualifies, the percentage is [100]
    and the verdict is that the theorem holds for all of them. *)
Theorem X3_spin_main_summary `{Sympy} (limit : Z) :
  2 ≤ limit →
  ∃ s, spin_main limit = Ok s
    ∧ 1 ≤ sum_total s
    ∧ sum_holds s = sum_total s
    ∧ Qeq (sum_percentage s) (inject_Z 100)
    ∧ sum_verdict s = AllHold.
Proof.
  intros Hl. unfold spin_main.
  pose proof (run_batch_total_pos limit Hl) as Hpos.
  destruct (run_batch_results limit) as (_ & _ & Hholds).
  destruct (Z.eqb_spec (total (run_batch limit)) 0) as [?|_]; [lia|].
  simpl. eexists. split; [done|]. simpl.
  rewrite Hholds, Z.eqb_refl. split_and!; [done|done| |done].
  unfold Qeq, inject_Z. simpl Qnum. simpl Qden.
  rewrite Z2Pos.id by lia. lia.
Qed.

Lemma X3_spin_main_summary_witness :
  2 ≤ 6
  ∧ ∃ s, @spin_main reference_sympy 6 = Ok s
      ∧ 1 ≤ sum_total s
      ∧ sum_holds s = sum_total s
      ∧ Qeq (sum_percentage s) (inject_Z 100)
      ∧ sum_verdict s = AllHold.
Proof.
  split; [lia|]. apply (@X3_spin_main_summary reference_sympy 6). lia.
Defined.

(** X4. [main] fails with a [ZeroDivisionError] in the percentage exactly
    when the limit is below [2], where no interval is scanned. *)
Theorem X4_spin_main_empty_range `{Sympy} (limit : Z) :
  spin_main limit = Raise ZeroDivisionError ↔ limit < 2.
Proof.
  unfold spin_main. split.
  - intros Herr. destruct (decide (limit < 2)) as [|Hge]; [done|exfalso].
    pose proof (run_batch_total_pos limit ltac:(lia)) as Hpos.
    destruct (Z.eqb_spec (total (run_batch limit)) 0) as [?|_]; [lia|].
    simpl in Herr. done.
  - intros Hl. by rewrite (run_batch_total_zero limit Hl).
Qed.

(** X5. [run_weapon_a_topology] finds the law satisfied in every qualifying
    interval: both counters equal the number of qualifying [n], which is the
    [total] of verify_spin_asymmetry, and the printed rate is [100]; below
    [2] there is no qualifying interval and the rate raises
    [ZeroDivisionError]. *)
Theorem X5_topology_law_always_holds `{Sympy} (limit_n : Z) :
  (limit_n < 2 ∧ run_weapon_a_topology limit_n = Raise ZeroDivisionError)
  ∨ (2 ≤ limit_n
     ∧ ∃ rate, run_weapon_a_topology limit_n
         = Ok (total (run_batch limit_n), total (run_batch limit_n), rate)
         ∧ Qeq rate (inject_Z 100)).
Proof.
  unfold run_weapon_a_topology. rewrite topology_foldl. simpl fst. simpl snd.
  destruct (run_batch_results limit_n) as (Hres & Htot & _).
  rewrite Hres in Htot. rewrite !Z.add_0_l, <- Htot.
  destruct (decide (limit_n < 2)) as [Hl|Hge].
  - left. split; [done|]. by rewrite (run_batch_total_zero limit_n Hl).
  - right. split; [lia|].
    pose proof (run_batch_total_pos limit_n ltac:(lia)) as Hpos.
    destruct (Z.eqb_spec (total (run_batch limit_n)) 0) as [?|_]; [lia|].
    simpl. eexists. split; [done|].
    unfold Qeq, inject_Z, Qmult. simpl Qnum. simpl Qden.
    rewrite Pos.mul_1_r, Z2Pos.id by lia. lia.
Qed.

(** X6. For [n >= 2] the interior handed to the sieve has [p - 1] points,
    and the anchor the search loop finds is [(n // 2) * p]: it lies in the
    interior and is its only multiple of [p].  The modulus need not be
    prime. *)
Theorem X6_sieve_anchor `{Sympy} (n : Z) :
  2 ≤ n →
  let p := 2 * n - 1 in
  let report := weapon_A_residue_sieve n p in
  Z.of_nat (inner_count report) = p - 1
  ∧ multiple_of_p report = Some (n `div` 2 * p)
  ∧ (n - 1) ^ 2 < n `div` 2 * p < n ^ 2
  ∧ ∀ x, (n - 1) ^ 2 < x < n ^ 2 → x mod p = 0 ↔ x = n `div` 2 * p.
Proof.
  intros Hn. cbv zeta. unfold weapon_A_residue_sieve.
  cbn [inner_count multiple_of_p].
  destruct (sieve_multiple n Hn) as [Hfind Huniq].
  split; [|split; [done|split; [by apply interior_multiple|]]].
  - rewrite length_seqZ. lia.
  - intros x Hx. apply Huniq, elem_of_seqZ. lia.
Qed.

Lemma X6_sieve_anchor_witness :
  2 ≤ 5
  ∧ multiple_of_p (@weapon_A_residue_sieve reference_sympy 5 9) = Some 18
  ∧ Z.of_nat (inner_count (@weapon_A_residue_sieve reference_sympy 5 (2 * 5 - 1)))
    = 2 * 5 - 1 - 1.
Proof.
  split; [lia|]. split; [vm_compute; reflexivity|].
  exact (proj1 (@X6_sieve_anchor reference_sympy 5 ltac:(lia))).
Defined.

(** X7. At a prime modulus the sieve counts [(p - 3) / 2] positive and
    [(p - 1) / 2] negative spins, the counts of [verify_interval], so the
    two are never equal and the symmetry message is never printed. *)
Theorem X7_sieve_asymmetry `{Sympy} (n : Z) :
  2 ≤ n → Z.prime (2 * n - 1) →
  let report := weapon_A_residue_sieve n (2 * n - 1) in
  positive_spin report = Z.to_nat (n - 2)
  ∧ negative_spin report = Z.to_nat (n - 1)
  ∧ symmetry_message report = false
  ∧ fst (dual_weapon_main n) = Some report
  ∧ ∃ r, verify_interval n = Some r
      ∧ N_plus r = Z.of_nat (positive_spin report)
      ∧ N_minus r = Z.of_nat (negative_spin report).
Proof.
  intros Hn Hp. cbv zeta.
  assert (Hpos : positive_spin (weapon_A_residue_sieve n (2 * n - 1))
                 = Z.to_nat (n - 2)).
  { unfold weapon_A_residue_sieve. cbn [positive_spin].
    destruct (sieve_multiple n Hn) as [-> _].
    rewrite sieve_counts by done. by apply interior_plus. }
  assert (Hneg : negative_spin (weapon_A_residue_sieve n (2 * n - 1))
                 = Z.to_nat (n - 1)).
  { unfold weapon_A_residue_sieve. cbn [negative_spin].
    destruct (sieve_multiple n Hn) as [-> _].
    rewrite sieve_counts by done. by apply interior_minus. }
  split_and!; [done|done| | |].
  - unfold weapon_A_residue_sieve in *. cbn [symmetry_message].
    cbn [positive_spin negative_spin] in Hpos, Hneg.
    rewrite Hpos, Hneg. apply bool_decide_eq_false. lia.
  - unfold dual_weapon_main. simpl fst.
    assert (Hip : isprime (2 * n - 1) = true) by by apply isprime_spec.
    by rewrite Hip.
  - eexists. split; [by apply verify_interval_prime|].
    rewrite Hpos, Hneg. simpl. lia.
Qed.

Lemma X7_sieve_asymmetry_witness :
  2 ≤ 4 ∧ Z.prime (2 * 4 - 1)
  ∧ positive_spin (@weapon_A_residue_sieve reference_sympy 4 7) = 2%nat
  ∧ negative_spin (@weapon_A_residue_sieve reference_sympy 4 7) = 3%nat
  ∧ symmetry_message (@weapon_A_residue_sieve reference_sympy 4 (2 * 4 - 1))
    = false.
Proof.
  assert (Hp : Z.prime (2 * 4 - 1)).
  { apply trial_isprime_spec. vm_compute. reflexivity. }
  split; [lia|]. split; [exact Hp|].
  split; [vm_compute; reflexivity|]. split; [vm_compute; reflexivity|].
  exact (proj1 (proj2 (proj2
           (@X7_sieve_asymmetry reference_sympy 4 ltac:(lia) Hp)))).
Defined.

(** X8. The [missing_residue] of a record is the residue of both endpoints,
    a nonzero square modulo [p]; no interior point has it, and every other
    residue is the residue of exactly one interior point. *)
Theorem X8_missing_residue `{Sympy} (n : Z) (r : SpinRecord) :
  verify_interval n = Some r →
  let p := 2 * n - 1 in
  let interior := seqZ ((n - 1) ^ 2 + 1) (n ^ 2 - ((n - 1) ^ 2 + 1)) in
  missing_residue r = (n - 1) ^ 2 mod p
  ∧ 0 < missing_residue r < p
  ∧ quadratic_residue p (missing_residue r)
  ∧ (∀ x, x ∈ interior → x mod p ≠ missing_residue r)
  ∧ (∀ res, 0 ≤ res < p → res ≠ missing_residue r →
       ∃ x, x ∈ interior ∧ x mod p = res
         ∧ ∀ y, y ∈ interior → y mod p = res → y = x).
Proof.
  intros Hr. cbv zeta.
  apply verify_interval_Some_record in Hr as (Hn & Hp & ->). simpl.
  assert (Hmiss : (n * n) mod (2 * n - 1) = (n - 1) ^ 2 mod (2 * n - 1)).
  { replace (n * n) with ((n - 1) ^ 2 + 1 * (2 * n - 1)) by lia.
    apply Z_mod_plus_full. }
  rewrite Hmiss.
  destruct (start_residue n Hn Hp) as [Hrange Hqr].
  replace (n ^ 2 - ((n - 1) ^ 2 + 1)) with (2 * n - 1 - 1) by lia.
  split; [done|]. split; [done|]. split; [done|].
  split.
  - intros x Hx Heq. rewrite elem_of_seqZ in Hx.
    apply (window_mod_inj ((n - 1) ^ 2) (2 * n - 1)) in Heq; lia.
  - intros res Hres Hne.
    assert (Hin : res ∈ seqZ 0 (2 * n - 1)) by (apply elem_of_seqZ; lia).
    rewrite <- (window_residues ((n - 1) ^ 2) (2 * n - 1)) in Hin by lia.
    apply list_elem_of_fmap in Hin as (x & -> & Hx).
    rewrite elem_of_seqZ in Hx.
    assert (Hx' : x ≠ (n - 1) ^ 2) by (by intros ->).
    exists x. split; [apply elem_of_seqZ; lia|]. split; [done|].
    intros y Hy Heq. rewrite elem_of_seqZ in Hy.
    apply (window_mod_inj ((n - 1) ^ 2) (2 * n - 1)); lia || done.
Qed.

Lemma X8_missing_residue_witness :
  @verify_interval reference_sympy 4 = Some {|
    rec_n := 4; rec_p := 7; missing_residue := 2;
    N_plus := 2; N_minus := 3; N_zero := 1;
    expected_plus := 2; expected_minus := 3;
    gap := 1; theorem_holds := true |}
  ∧ ∀ x, x ∈ seqZ ((4 - 1) ^ 2 + 1) (4 ^ 2 - ((4 - 1) ^ 2 + 1)) →
      x mod (2 * 4 - 1) ≠ 2.
Proof.
  assert (Hr : @verify_interval reference_sympy 4 = Some {|
    rec_n := 4; rec_p := 7; missing_residue := 2;
    N_plus := 2; N_minus := 3; N_zero := 1;
    expected_plus := 2; expected_minus := 3;
    gap := 1; theorem_holds := true |}) by (vm_compute; reflexivity).
  split; [exact Hr|].
  exact (proj1 (proj2 (proj2 (proj2
           (@X8_missing_residue reference_sympy 4 _ Hr))))).
Defined.

(** X9. The run finder returns the empty list exactly for [n <= 0], where
    the interval is empty; from [n = 1] on the left endpoint is a square and
    starts a run. *)
Theorem X9_gap_empty_iff `{Sympy} (n : Z) :
  find_max_composite_gap n = [] ↔ n ≤ 0.
Proof.
  split.
  - intros Hnil. destruct (decide (n ≤ 0)) as [|Hpos]; [done|exfalso].
    destruct (find_max_composite_gap_shape n ltac:(lia))
      as (a & len & _ & Hlen & (Hpos' & _) & _).
    rewrite Hnil in Hlen. simpl in Hlen. lia.
  - apply find_max_composite_gap_empty.
Qed.

(** X10. For [n >= 2] an iteration of wronskian_scanner's [main] appends a
    row: [gap_start] and [gap_end] are the ends of the run, inside the
    interval, with [gap_end - gap_start + 1 = gap_length]; the ratio is always
    present, while [log_volume] and [log_radical] are [None] at [n = 2] only,
    where both logarithms are [0.0] and so count as false. *)
Theorem X10_gap_row_shape `{Sympy} (n : Z) :
  2 ≤ n →
  ∃ row a b, wronskian_iteration n = inr row
    ∧ row_n row = n
    ∧ gap_start row = Some a ∧ gap_end row = Some b
    ∧ (n - 1) ^ 2 ≤ a ∧ a ≤ b ∧ b ≤ n ^ 2
    ∧ Z.of_nat (gap_length row) = b - a + 1
    ∧ find_max_composite_gap n = seqZ a (b - a + 1)
    ∧ (row_log_volume row = None ↔ n = 2)
    ∧ (row_log_radical row = None ↔ n = 2)
    ∧ row_q_W row ≠ None.
Proof.
  intros Hn.
  destruct (find_max_composite_gap_shape n ltac:(lia))
    as (a & len & Hrun & Hlen & (Hpos & Hlo & Hhi & _) & _).
  destruct (seqZ_head_last a len Hpos) as [Hhead Hlast].
  destruct (gap_volume_unit n Hn) as [HV HR].
  eexists. exists a, (a + len - 1).
  split; [by apply wronskian_iteration_row|].
  cbn [row_n gap_start gap_end gap_length row_log_volume row_log_radical
       row_q_W].
  replace (a + len - 1 - a + 1) with len by lia.
  rewrite Hrun at 1 2. rewrite Hhead, Hlast.
  split_and!; try done; try lia.
  - destruct (Z.eqb_spec (product (find_max_composite_gap n)) 1) as [He|He].
    + split; [intros _; by apply HV|done].
    + split; [done|]. intros Hn2. by apply HV in Hn2.
  - destruct (Z.eqb_spec
      (product (elements (collect_primes ∅ (find_max_composite_gap n)))) 1)
      as [He|He].
    + split; [intros _; by apply HR|done].
    + split; [done|]. intros Hn2. by apply HR in Hn2.
  - by destruct (1 <? _).
Qed.

Lemma X10_gap_row_shape_witness :
  2 ≤ 3
  ∧ @wronskian_iteration reference_sympy 3 = inr {|
      row_n := 3; gap_length := 2; gap_start := Some 8; gap_end := Some 9;
      row_log_volume := Some (Round (Ln 72) 2);
      row_log_radical := Some (Round (Ln 6) 2);
      row_q_W := Some (Round (Quot (Ln 72) (Ln 6)) 4) |}
  ∧ ∃ row a b, @wronskian_iteration reference_sympy 3 = inr row
      ∧ row_n row = 3
      ∧ gap_start row = Some a ∧ gap_end row = Some b
      ∧ (3 - 1) ^ 2 ≤ a ∧ a ≤ b ∧ b ≤ 3 ^ 2
      ∧ Z.of_nat (gap_length row) = b - a + 1
      ∧ @find_max_composite_gap reference_sympy 3 = seqZ a (b - a + 1)
      ∧ (row_log_volume row = None ↔ 3 = 2)
      ∧ (row_log_radical row = None ↔ 3 = 2)
      ∧ row_q_W row ≠ None.
Proof.
  split; [lia|]. split; [vm_compute; reflexivity|].
  apply (@X10_gap_row_shape reference_sympy 3). lia.
Defined.

(** X11. From [n = 3] on the run has at least two members: [n^2 - 1] and
    [n^2] are neighbours of the interval and neither is prime. *)
Theorem X11_gap_at_least_two `{Sympy} (n : Z) :
  3 ≤ n → (2 ≤ length (find_max_composite_gap n))%nat.
Proof.
  intros Hn.
  destruct (find_max_composite_gap_shape n ltac:(lia))
    as (a & len & _ & Hlen & _ & Hbest).
  destruct (maximal_run_exists_right ((n - 1) ^ 2) (n ^ 2)) as [a' Hrun].
  { nia. }
  { rewrite Z.pow_2_r. apply Z.not_prime_square. }
  assert (Ha' : a' ≤ n ^ 2 - 1).
  { destruct Hrun as (? & ? & _ & _ & [->|Hp] & _); [nia|].
    destruct (decide (a' ≤ n ^ 2 - 1)) as [|Hgt]; [done|].
    assert (a' = n ^ 2) as -> by lia.
    by apply pred_square_not_prime in Hp. }
  apply Hbest in Hrun. lia.
Qed.

Lemma X11_gap_at_least_two_witness :
  3 ≤ 4 ∧ @find_max_composite_gap reference_sympy 4 = [14; 15; 16]
  ∧ (2 ≤ length (@find_max_composite_gap reference_sympy 4))%nat.
Proof.
  split; [lia|]. split; [vm_compute; reflexivity|].
  apply (@X11_gap_at_least_two reference_sympy 4). lia.
Defined.

(** X12. An iteration of wronskian_scanner's [main] ends in one of three
    ways: for [n <= 0] the run is empty and formatting the [None] volume
    raises [TypeError]; for [n = 1] the run is [[0, 1]] and [math.log(0)]
    raises [ValueError]; for [n >= 2] a row is produced. *)
Theorem X12_wronskian_iteration_cases `{Sympy} (n : Z) :
  (n ≤ 0 ∧ wronskian_iteration n = inl TypeError)
  ∨ (n = 1 ∧ find_max_composite_gap n = [0; 1]
     ∧ wronskian_iteration n = inl (Arithmetic ValueError))
  ∨ (2 ≤ n ∧ ∃ row, wronskian_iteration n = inr row).
Proof.
  destruct (decide (n ≤ 0)) as [Hn|Hn].
  { left. split; [done|]. unfold wronskian_iteration.
    by rewrite find_max_composite_gap_empty. }
  right. destruct (decide (n = 1)) as [->|Hn1].
  - left. split; [done|]. split; [apply find_max_composite_gap_1|].
    unfold wronskian_iteration. rewrite find_max_composite_gap_1.
    rewrite compute_wronskian_error; [done|]. left. lia.
  - right. split; [lia|]. eexists. apply wronskian_iteration_row. lia.
Qed.

(** X13. [compute_wronskian] raises [ValueError] exactly when some member is
    zero or negative, and then nothing else happens: no division, no
    factorisation of a non-positive number. *)
Theorem X13_compute_wronskian_value_error `{Sympy} (composites : list Z) :
  (compute_wronskian composites = Raise ValueError
   ↔ Exists (λ c, c ≤ 0) composites)
  ∧ ((∃ v, compute_wronskian composites = Ok v)
     ↔ Forall (λ c, 0 < c) composites).
Proof.
  destruct (positive_or_not composites) as [Hpos|Hex].
  - assert (Hok : ∃ v, compute_wronskian composites = Ok v).
    { destruct (decide (composites = [])) as [->|Hne]; [by eexists|].
      rewrite compute_wronskian_value; [by eexists|done|].
      eapply Forall_impl; [exact Hpos|]. simpl. lia. }
    split; split; try done.
    + destruct Hok as [v Hv]. rewrite Hv. done.
    + intros Hex. apply Exists_exists in Hex as (c & Hc & Hle).
      rewrite Forall_forall in Hpos. specialize (Hpos c Hc). lia.
  - rewrite (compute_wronskian_error composites Hex).
    split; split; try done.
    + intros [v Hv]. done.
    + intros Hpos. apply Exists_exists in Hex as (c & Hc & Hle).
      rewrite Forall_forall in Hpos. specialize (Hpos c Hc). lia.
Qed.

(** X14. In exact arithmetic the three scripts agree for [n >= 2].  The
    integers [total_product] and [total_radical] of dual_weapon are the
    product [V] of the run and the product [R] of the distinct primes that
    divide a member, and the log-volume and the log-radical of
    wronskian_scanner and of topology_scanner are the logarithms of [V] and
    of [R].  From [n = 3] on [R > 1] and the three scripts take the division;
    at [n = 2], where [V = R = 1], wronskian_scanner takes the branch
    [float('inf')] and the other two the branch [1.0].  Nothing is stated
    about the doubles the scripts print: they round in different places, and
    the printed numbers can differ in the last digits. *)
Theorem X14_scripts_agree `{Sympy} (n : Z) :
  2 ≤ n →
  let run := find_max_composite_gap n in
  let V := product run in
  let R := product (elements (collect_primes ∅ run)) in
  ∃ q_W q,
    compute_wronskian run = Ok (Some (Ln V), Some (Ln R), Some q_W)
    ∧ topology_row n = Ok (Some (n, length run, Ln V, Ln R, q))
    ∧ weapon_B_wronskian_volume n = Ok (Some (V, R, q))
    ∧ (3 ≤ n → 1 < R ∧ q_W = Quot (Ln V) (Ln R) ∧ q = Quot (Ln V) (Ln R))
    ∧ (n = 2 → V = 1 ∧ R = 1 ∧ q_W = Infinity ∧ q = RatioOne).
Proof.
  intros Hn. cbv zeta.
  destruct (find_max_composite_gap_run n Hn) as [Hne _].
  pose proof (find_max_composite_gap_ge_1 n Hn) as Hall.
  destruct (gap_volume_unit n Hn) as [HV HR].
  eexists _, _.
  split; [by apply compute_wronskian_value|].
  split; [by apply topology_row_value|].
  split; [by apply weapon_B_wronskian_volume_value|].
  split.
  - intros Hn3.
    assert (Hgt : 1 < product (elements
                     (collect_primes ∅ (find_max_composite_gap n)))).
    { apply collected_primes_gt_1; [done|].
      pose proof (find_max_composite_gap_composite n Hn3) as Hcomp.
      destruct (find_max_composite_gap n) as [|c l]; [done|].
      apply Forall_cons in Hcomp as [[? _] _].
      exists c. split; [left|done]. }
    split; [done|]. apply Z.ltb_lt in Hgt. by rewrite Hgt.
  - intros Hn2. apply HV in Hn2 as HV1. apply HR in Hn2 as HR1.
    rewrite HV1, HR1. done.
Qed.

Lemma X14_scripts_agree_witness :
  2 ≤ 3
  ∧ @find_max_composite_gap reference_sympy 3 = [8; 9]
  ∧ @weapon_B_wronskian_volume reference_sympy 3
    = Ok (Some (72, 6, Quot (Ln 72) (Ln 6)))
  ∧ let run := @find_max_composite_gap reference_sympy 3 in
    let V := product run in
    let R := product (elements (@collect_primes reference_sympy ∅ run)) in
    ∃ q_W q,
      @compute_wronskian reference_sympy run
      = Ok (Some (Ln V), Some (Ln R), Some q_W)
      ∧ @topology_row reference_sympy 3
        = Ok (Some (3, length run, Ln V, Ln R, q))
      ∧ @weapon_B_wronskian_volume reference_sympy 3 = Ok (Some (V, R, q))
      ∧ (3 ≤ 3 → 1 < R ∧ q_W = Quot (Ln V) (Ln R) ∧ q = Quot (Ln V) (Ln R))
      ∧ (3 = 2 → V = 1 ∧ R = 1 ∧ q_W = Infinity ∧ q = RatioOne).
Proof.
  split; [lia|]. split; [vm_compute; reflexivity|].
  split; [vm_compute; reflexivity|].
  apply (@X14_scripts_agree reference_sympy 3). lia.
Defined.

(** X15. On targets that are all at least [2], [run_weapon_b_wronskian]
    raises nothing and skips nothing: it prints one row for every target,
    in the order of the targets. *)
Theorem X15_topology_rows `{Sympy} (n_targets : list Z) :
  Forall (λ n, 2 ≤ n) n_targets →
  ∃ rows, run_weapon_b_wronskian n_targets = Ok rows
    ∧ (λ row, row.1.1.1.1) <$> rows = n_targets
    ∧ Forall (λ row, (1 ≤ row.1.1.1.2)%nat) rows.
Proof.
  induction 1 as [|n rest Hn _ (rows & Hrows & Hns & Hlen)]; simpl.
  { exists []. by split_and!. }
  rewrite topology_row_value by done. simpl. rewrite Hrows. simpl.
  eexists. split; [done|]. rewrite fmap_cons, Hns. split; [done|].
  constructor; [|done]. simpl.
  destruct (find_max_composite_gap_run n Hn) as [Hne _].
  destruct (find_max_composite_gap n); [done|]. simpl. lia.
Qed.

Lemma X15_topology_rows_witness :
  Forall (λ n, 2 ≤ n) [2; 3]
  ∧ @run_weapon_b_wronskian reference_sympy [2; 3]
    = Ok [(2, 1%nat, Ln 1, Ln 1, RatioOne);
          (3, 2%nat, Ln 72, Ln 6, Quot (Ln 72) (Ln 6))]
  ∧ ∃ rows, @run_weapon_b_wronskian reference_sympy [2; 3] = Ok rows
      ∧ (λ row, row.1.1.1.1) <$> rows = [2; 3]
      ∧ Forall (λ row, (1 ≤ row.1.1.1.2)%nat) rows.
Proof.
  assert (Hall : Forall (λ n, 2 ≤ n) [2; 3]) by (repeat constructor; lia).
  split; [exact Hall|]. split; [vm_compute; reflexivity|].
  exact (@X15_topology_rows reference_sympy [2; 3] Hall).
Defined.

(** X16. For [n >= 1] the radical divides [n], lies between [1] and [n], and
    has the prime divisors of [n]. *)
Theorem X16_radical_divides `{Sympy} (n : Z) :
  1 ≤ n →
  (compute_radical n | n)
  ∧ 1 ≤ compute_radical n ≤ n
  ∧ ∀ q, Z.prime q → (q | compute_radical n) ↔ (q | n).
Proof.
  intros Hn. pose proof (compute_radical_divide n Hn) as Hd.
  pose proof (compute_radical_pos n).
  split; [done|]. split; [|by intros q Hq; apply prime_divide_radical].
  apply Z.divide_pos_le in Hd; lia.
Qed.

Lemma X16_radical_divides_witness :
  1 ≤ 12 ∧ @compute_radical reference_sympy 12 = 6
  ∧ (@compute_radical reference_sympy 12 | 12).
Proof.
  split; [lia|]. split; [vm_compute; reflexivity|].
  exact (proj1 (@X16_radical_divides reference_sympy 12 ltac:(lia))).
Defined.

(** X17. The radical of [n >= 1] has no square factor, and taking the
    radical again changes nothing. *)
Theorem X17_radical_squarefree `{Sympy} (n : Z) :
  1 ≤ n →
  compute_radical (compute_radical n) = compute_radical n
  ∧ ∀ q, Z.prime q → ¬ (q * q | compute_radical n).
Proof.
  intros Hn. pose proof (compute_radical_pos n) as Hpos.
  assert (Hsf : ∀ q, Z.prime q → ¬ (q * q | compute_radical n)).
  { intros q Hq. rewrite compute_radical_keys by done.
    apply distinct_primes_squarefree;
      [done|by apply factorint_keys_NoDup|by apply factorint_keys_prime]. }
  split; [|done].
  rewrite (compute_radical_keys (compute_radical n)) by done.
  rewrite (compute_radical_keys n) at 2 by done.
  apply product_Permutation, NoDup_Permutation;
    [by apply factorint_keys_NoDup..|].
  intros q. rewrite !factorint_keys_spec by done.
  split; intros [Hq Hd]; (split; [done|]); by apply prime_divide_radical.
Qed.

Lemma X17_radical_squarefree_witness :
  1 ≤ 12
  ∧ @compute_radical reference_sympy (@compute_radical reference_sympy 12)
    = @compute_radical reference_sympy 12.
Proof.
  split; [lia|].
  exact (proj1 (@X17_radical_squarefree reference_sympy 12 ltac:(lia))).
Defined.

(** X18. The radical is multiplicative on coprime arguments. *)
Theorem X18_radical_multiplicative `{Sympy} (a b : Z) :
  1 ≤ a → 1 ≤ b → Z.gcd a b = 1 →
  compute_radical (a * b) = compute_radical a * compute_radical b.
Proof.
  intros Ha Hb Hg. rewrite !compute_radical_keys by nia.
  assert (Happ : product (factorint_keys a ++ factorint_keys b)
                 = product (factorint_keys a) * product (factorint_keys b)).
  { generalize (factorint_keys b). intros k.
    induction (factorint_keys a) as [|x l IH]; simpl; [lia|].
    rewrite IH. lia. }
  rewrite <- Happ.
  apply product_Permutation, NoDup_Permutation.
  - apply factorint_keys_NoDup. nia.
  - apply NoDup_app. split_and!; [by apply factorint_keys_NoDup| |].
    + intros q Hqa Hqb.
      apply factorint_keys_spec in Hqa as [Hq Hda]; [|done].
      apply factorint_keys_spec in Hqb as [_ Hdb]; [|done].
      assert (Hd : (q | Z.gcd a b)) by by apply Z.gcd_greatest.
      rewrite Hg in Hd. apply Z.divide_1_r_nonneg in Hd;
        pose proof (Z.prime_ge_2 _ Hq); lia.
    + by apply factorint_keys_NoDup.
  - intros q. rewrite elem_of_app, !factorint_keys_spec by nia.
    split.
    + intros [Hq Hd]. apply Z.divide_prime_mul in Hd; [|done]. tauto.
    + intros [[Hq Hd]|[Hq Hd]]; (split; [done|]).
      * by apply Z.divide_mul_l.
      * by apply Z.divide_mul_r.
Qed.

Lemma X18_radical_multiplicative_witness :
  1 ≤ 4 ∧ 1 ≤ 9 ∧ Z.gcd 4 9 = 1
  ∧ @compute_radical reference_sympy (4 * 9)
    = @compute_radical reference_sympy 4 * @compute_radical reference_sympy 9.
Proof.
  split; [lia|]. split; [lia|]. split; [reflexivity|].
  apply (@X18_radical_multiplicative reference_sympy 4 9);
    [lia|lia|reflexivity].
Defined.

(** X20. The table of [main] shows the first five and the last three
    records; it shows no record twice exactly when at least eight intervals
    qualify. *)
Theorem X20_display_repeats `{Sympy} (limit : Z) (s : SpinSummary) :
  spin_main limit = Ok s →
  sum_display s
  = (Some <$> take 5 (results (run_batch limit))) ++ [None]
    ++ (Some <$> last_k 3 (results (run_batch limit)))
  ∧ (NoDup (sum_display s) ↔ 8 ≤ sum_total s).
Proof.
  unfold spin_main. intros Hs.
  destruct (Z.eqb_spec (total (run_batch limit)) 0) as [?|Hne]; [done|].
  simpl in Hs. injection Hs as <-. cbn [sum_display sum_total].
  split; [done|].
  destruct (run_batch_results limit) as (Hres & Htot & _).
  rewrite display_NoDup, Htot by apply run_batch_NoDup.
  split; [intros [Hnil|?]; [|lia]|intros ?; right; lia].
  rewrite Hnil in Htot. simpl in Htot. lia.
Qed.

Lemma X20_display_repeats_witness :
  ∃ s, @spin_main reference_sympy 6 = Ok s
    ∧ (NoDup (sum_display s) ↔ 8 ≤ sum_total s).
Proof.
  eexists.
  assert (Hs : @spin_main reference_sympy 6 = Ok _)
    by (vm_compute; reflexivity).
  split; [exact Hs|].
  exact (proj2 (@X20_display_repeats reference_sympy 6 _ Hs)).
Defined.

(** X21. For every [n >= 1] the run returned by the finder is a non-empty
    block of consecutive integers of the interval, none of them prime, with
    a prime or the boundary of the interval next to it on each side; from
    [n = 3] on every member is composite. *)
Theorem X21_gap_is_maximal_block `{Sympy} (n : Z) :
  1 ≤ n →
  ∃ a len, find_max_composite_gap n = seqZ a len
    ∧ 0 < len
    ∧ Z.of_nat (length (find_max_composite_gap n)) = len
    ∧ (n - 1) ^ 2 ≤ a ∧ a + len - 1 ≤ n ^ 2
    ∧ (∀ x, x ∈ find_max_composite_gap n → ¬ Z.prime x)
    ∧ (a = (n - 1) ^ 2 ∨ Z.prime (a - 1))
    ∧ (a + len - 1 = n ^ 2 ∨ Z.prime (a + len))
    ∧ (3 ≤ n → Forall composite (find_max_composite_gap n)).
Proof.
  intros Hn.
  destruct (find_max_composite_gap_shape n Hn)
    as (a & len & Hrun & Hlen & (Hpos & Hlo & Hhi & Hpf & Hleft & Hright) & _).
  exists a, len. split_and!; try done.
  - intros x Hx. rewrite Hrun, elem_of_seqZ in Hx. apply Hpf. lia.
  - apply find_max_composite_gap_composite.
Qed.

Lemma X21_gap_is_maximal_block_witness :
  1 ≤ 4 ∧ @find_max_composite_gap reference_sympy 4 = seqZ 14 3
  ∧ ∃ a len, @find_max_composite_gap reference_sympy 4 = seqZ a len
      ∧ 0 < len
      ∧ Z.of_nat (length (@find_max_composite_gap reference_sympy 4)) = len
      ∧ (4 - 1) ^ 2 ≤ a ∧ a + len - 1 ≤ 4 ^ 2
      ∧ (∀ x, x ∈ @find_max_composite_gap reference_sympy 4 → ¬ Z.prime x)
      ∧ (a = (4 - 1) ^ 2 ∨ Z.prime (a - 1))
      ∧ (a + len - 1 = 4 ^ 2 ∨ Z.prime (a + len))
      ∧ (3 ≤ 4 → Forall composite (@find_max_composite_gap reference_sympy 4)).
Proof.
  split; [lia|]. split; [vm_compute; reflexivity|].
  apply (@X21_gap_is_maximal_block reference_sympy 4). lia.
Defined.

(** X22. An iteration of [run_weapon_b_wronskian] ends in one of three ways:
    for [n <= 0] the run is empty and the target is skipped; for [n = 1]
    the run is [[0, 1]] and [math.log(0)] raises [ValueError]; for [n >= 2]
    a row is printed. *)
Theorem X22_topology_row_cases `{Sympy} (n : Z) :
  (n ≤ 0 ∧ topology_row n = Ok None)
  ∨ (n = 1 ∧ topology_row n = Raise ValueError)
  ∨ (2 ≤ n ∧ ∃ row, topology_row n = Ok (Some row)).
Proof.
  destruct (decide (n ≤ 0)) as [Hn|Hn].
  { left. split; [done|]. unfold topology_row.
    fold (find_max_composite_gap n).
    by rewrite find_max_composite_gap_empty. }
  right. destruct (decide (n = 1)) as [->|Hn1].
  - left. split; [done|]. unfold topology_row.
    fold (find_max_composite_gap 1). rewrite find_max_composite_gap_1.
    simpl length. simpl Nat.eqb. cbv iota.
    rewrite topology_accumulate_error; [done|]. left. lia.
  - right. split; [lia|]. eexists. apply topology_row_value. lia.
Qed.

(** X23. The radical of [n >= 1] is [n] itself exactly when no square of a
    prime divides [n]. *)
Theorem X23_radical_fixed_points `{Sympy} (n : Z) :
  1 ≤ n →
  compute_radical n = n ↔ ∀ q, Z.prime q → ¬ (q * q | n).
Proof.
  intros Hn. split.
  - intros Heq q Hq. rewrite <- Heq, compute_radical_keys by done.
    apply distinct_primes_squarefree;
      [done|by apply factorint_keys_NoDup|by apply factorint_keys_prime].
  - intros Hsf.
    destruct (compute_radical_divide n Hn) as [m Hm].
    pose proof (compute_radical_pos n) as Hpos.
    assert (Hm1 : 1 ≤ m) by nia.
    destruct (decide (m = 1)) as [->|Hne]; [lia|exfalso].
    destruct (prime_divisor_exists m ltac:(lia)) as (q & Hq & [m' Hm']).
    assert (Hqn : (q | n)).
    { exists (m' * compute_radical n). rewrite Hm at 1. rewrite Hm'. lia. }
    apply prime_divide_radical in Hqn as [r' Hr']; [|done|done].
    apply (Hsf q Hq). exists (m' * r').
    rewrite Hm at 1. rewrite Hr', Hm'. lia.
Qed.

Lemma X23_radical_fixed_points_witness :
  1 ≤ 30 ∧ @compute_radical reference_sympy 30 = 30
  ∧ (@compute_radical reference_sympy 30 = 30
     ↔ ∀ q, Z.prime q → ¬ (q * q | 30)).
Proof.
  split; [lia|]. split; [vm_compute; reflexivity|].
  apply (@X23_radical_fixed_points reference_sympy 30). lia.
Defined.

(** X24. A call of dual_weapon's [weapon_B_wronskian_volume] ends in one of
    three ways: for [n <= 0] the run is empty and the function returns at
    its early [return]; for [n = 1] the run is [[0, 1]], the product is [0],
    the radical [1] and the ratio the literal [1.0], and the [print] of
    [math.log(total_product)] raises [ValueError]; for [n >= 2] the product
    [V], the radical [R] and the ratio are printed, with [1 <= R <= V]. *)
Theorem X24_weapon_B_cases `{Sympy} (n : Z) :
  (n ≤ 0 ∧ weapon_B_wronskian_volume n = Ok None)
  ∨ (n = 1
     ∧ total_product (find_max_composite_gap 1) = 0
     ∧ compute_radical 0 = 1
     ∧ weapon_B_wronskian_volume n = Raise ValueError)
  ∨ (2 ≤ n
     ∧ ∃ V R q, weapon_B_wronskian_volume n = Ok (Some (V, R, q))
                ∧ 1 ≤ R ≤ V).
Proof.
  destruct (decide (n ≤ 0)) as [Hn|Hn].
  { left. split; [done|]. unfold weapon_B_wronskian_volume.
    fold (find_max_composite_gap n).
    by rewrite find_max_composite_gap_empty. }
  right. destruct (decide (n = 1)) as [->|Hn1].
  - left. split; [done|]. unfold weapon_B_wronskian_volume.
    fold (find_max_composite_gap 1). rewrite find_max_composite_gap_1.
    done.
  - right. split; [lia|].
    assert (Hn2 : 2 ≤ n) by lia.
    pose proof (find_max_composite_gap_ge_1 n Hn2) as Hall.
    eexists _, _, _.
    split; [by apply weapon_B_wronskian_volume_value|].
    pose proof (collected_primes_divide _ Hall) as Hdiv.
    assert (0 < product (find_max_composite_gap n)).
    { apply product_pos. eapply Forall_impl; [exact Hall|]. simpl. lia. }
    pose proof (product_pos _ (collected_primes_pos _ Hall)).
    apply Z.divide_pos_le in Hdiv; [lia|done].
Qed.

(** X25. On binary64 numbers the result of [compute_wronskian] at the
    one-member run [[33]] is the same for every implementation of sympy that
    meets its contract, every order in which the set of primes is iterated,
    and every [math.log] that returns the correctly rounded doubles at [3],
    [11] and [33]: the log-volume is [math.log(33)], the log-radical is the
    double next above it, and the ratio is the double next below [1]. *)
Theorem X25_rounded_ratio_below_one `{Sympy} `{Binary64} :
  libm_log 3 = log_table 3 →
  libm_log 11 = log_table 11 →
  libm_log 33 = log_table 33 →
  ∃ log_volume log_radical q_W,
    compute_wronskian_double [33]
    = Ok (Some log_volume, Some log_radical, Some q_W)
    ∧ log_volume = 0x1.bf8d8f4d5b8d1p+1%float
    ∧ log_radical = 0x1.bf8d8f4d5b8d2p+1%float
    ∧ q_W = 0x1.fffffffffffffp-1%float
    ∧ (log_volume <? log_radical)%float = true
    ∧ (q_W <? 1)%float = true.
Proof.
  intros H3 H11 H33.
  assert (Hp3 : Z.prime 3) by by apply trial_isprime_spec.
  assert (Hp11 : Z.prime 11) by by apply trial_isprime_spec.
  assert (Hset : collect_primes ∅ [33] = {[3; 11]}).
  { unfold collect_primes. simpl foldl. apply set_eq. intros q.
    rewrite elem_of_union, elem_of_list_to_set, factorint_keys_spec by lia.
    rewrite elem_of_union, !elem_of_singleton. split.
    - intros [Hq|[Hq Hd]]; [by apply not_elem_of_empty in Hq|].
      change 33 with (3 * 11) in Hd.
      apply Z.divide_prime_mul in Hd as [Hd|Hd]; [| |done].
      + left. by apply Z.divide_prime_prime.
      + right. by apply Z.divide_prime_prime.
    - intros [-> | ->]; right; (split; [done|]).
      + by exists 11.
      + by exists 3. }
  pose proof (set_iter_Permutation (collect_primes ∅ [33])) as Hperm.
  rewrite Hset in Hperm.
  assert (Hel : elements ({[3; 11]} : gset Z) ≡ₚ [3; 11]).
  { assert (Hor : elements ({[3; 11]} : gset Z) = [3; 11]
                  ∨ elements ({[3; 11]} : gset Z) = [11; 3]).
    { vm_compute. auto. }
    destruct Hor as [-> | ->]; [done|apply perm_swap]. }
  rewrite Hel in Hperm. symmetry in Hperm.
  apply Permutation_length_2_inv in Hperm.
  unfold compute_wronskian_double.
  rewrite Hset.
  destruct Hperm as [-> | ->];
    cbn [sum_logs_double math_log_double mbind result_bind Z.leb Z.compare];
    rewrite H3, H11, H33;
    eexists _, _, _; (split; [reflexivity|]);
    split_and!; vm_compute; reflexivity.
Qed.

Lemma X25_rounded_ratio_below_one_witness :
  ∃ log_volume log_radical q_W,
    @compute_wronskian_double reference_sympy reference_binary64 [33]
    = Ok (Some log_volume, Some log_radical, Some q_W)
    ∧ log_volume = 0x1.bf8d8f4d5b8d1p+1%float
    ∧ log_radical = 0x1.bf8d8f4d5b8d2p+1%float
    ∧ q_W = 0x1.fffffffffffffp-1%float
    ∧ (log_volume <? log_radical)%float = true
    ∧ (q_W <? 1)%float = true.
Proof.
  apply (@X25_rounded_ratio_below_one reference_sympy reference_binary64);
    reflexivity.
Defined.
